(** * Scheduler: a polling sequencer of timed events

    Shallow embedding of [src/scheduler.py] (class [Scheduler]) and the
    properties of its [update] method.

    The Python object is a record of attributes; a call of [update] is a
    computation in a small state-and-exception monad over the pair of the
    object and its environment.  The environment supplies what the code
    obtains from outside: the successive readings of [now()] and the
    behaviour of the user callbacks (return or raise).  It also keeps a
    history of what happened, which the scheduler never reads.

    Assumptions of the model: an event is a well-formed 6-tuple whose delays
    are integers and whose condition is a boolean; a user function does not
    touch the [Scheduler] object it is called from; one thread calls
    [update].  The clock readings are arbitrary integers unless a statement
    says otherwise. *)

From Stdlib Require Import String ZArith List Bool Lia.
Import ListNotations.
Open Scope Z_scope.

(** ** Exceptions and results *)

Inductive exn : Type :=
| IndexError       (* params[i] with i out of range *)
| AttributeError   (* an attribute read before it was ever assigned *)
| CallbackError.   (* raised inside the user function *)

Inductive result (A : Type) : Type :=
| Ok (a : A)
| Raise (e : exn).
Arguments Ok {A} a.
Arguments Raise {A} e.

(** Python's [seq[i]]: a negative index counts from the end. *)
Definition py_index {A : Type} (l : list A) (i : Z) : option A :=
  let n := Z.of_nat (length l) in
  if (0 <=? i) && (i <? n) then nth_error l (Z.to_nat i)
  else if (- n <=? i) && (i <? 0) then nth_error l (Z.to_nat (n + i))
  else None.

(** Python's [not seq]. *)
Definition py_not {A : Type} (l : list A) : bool :=
  match l with [] => true | _ :: _ => false end.

Section Model.

(** The user functions and their argument bundles are opaque values. *)
Variables Func Args Kwargs : Type.

(** ** Data model *)

(** One event tuple
    [(predelay, condition, postdelay, func, args_tuple, kwargs_dict)];
    the projections are the tuple positions 0 to 5. *)
Record event : Type := Event {
  predelay : Z;
  condition : bool;
  postdelay : Z;
  func : Func;
  args_tuple : Args;
  kwargs_dict : Kwargs
}.

(** The attributes of a [Scheduler] object.  The last five are not assigned
    by [__init__]: they are [None] until their first assignment, and reading
    them before that is an [AttributeError]. *)
Record Scheduler : Type := MkScheduler {
  _verbose : bool;
  _event_num : Z;
  _predelay_finished : bool;
  _postdelay_finished : bool;
  _condition_met : bool;
  _is_last : bool;
  _all_finished : bool;
  _start_time : option Z;
  _predelay : option Z;
  _postdelay : option Z;
  _func : option Func;
  _condition : option bool
}.

(** [__init__] *)
Definition init (verbose : bool) : Scheduler :=
  {| _verbose := verbose;
     _event_num := -1;
     _predelay_finished := false;
     _postdelay_finished := false;
     _condition_met := false;
     _is_last := false;
     _all_finished := false;
     _start_time := None;
     _predelay := None;
     _postdelay := None;
     _func := None;
     _condition := None |}.

(** Attribute assignments. *)
Definition set_event_num (v : Z) (s : Scheduler) : Scheduler :=
  MkScheduler (_verbose s) v (_predelay_finished s) (_postdelay_finished s)
    (_condition_met s) (_is_last s) (_all_finished s) (_start_time s)
    (_predelay s) (_postdelay s) (_func s) (_condition s).

Definition set_predelay_finished (v : bool) (s : Scheduler) : Scheduler :=
  MkScheduler (_verbose s) (_event_num s) v (_postdelay_finished s)
    (_condition_met s) (_is_last s) (_all_finished s) (_start_time s)
    (_predelay s) (_postdelay s) (_func s) (_condition s).

Definition set_postdelay_finished (v : bool) (s : Scheduler) : Scheduler :=
  MkScheduler (_verbose s) (_event_num s) (_predelay_finished s) v
    (_condition_met s) (_is_last s) (_all_finished s) (_start_time s)
    (_predelay s) (_postdelay s) (_func s) (_condition s).

Definition set_condition_met (v : bool) (s : Scheduler) : Scheduler :=
  MkScheduler (_verbose s) (_event_num s) (_predelay_finished s)
    (_postdelay_finished s) v (_is_last s) (_all_finished s) (_start_time s)
    (_predelay s) (_postdelay s) (_func s) (_condition s).

Definition set_is_last (v : bool) (s : Scheduler) : Scheduler :=
  MkScheduler (_verbose s) (_event_num s) (_predelay_finished s)
    (_postdelay_finished s) (_condition_met s) v (_all_finished s)
    (_start_time s) (_predelay s) (_postdelay s) (_func s) (_condition s).

Definition set_all_finished (v : bool) (s : Scheduler) : Scheduler :=
  MkScheduler (_verbose s) (_event_num s) (_predelay_finished s)
    (_postdelay_finished s) (_condition_met s) (_is_last s) v
    (_start_time s) (_predelay s) (_postdelay s) (_func s) (_condition s).

Definition set_start_time (v : Z) (s : Scheduler) : Scheduler :=
  MkScheduler (_verbose s) (_event_num s) (_predelay_finished s)
    (_postdelay_finished s) (_condition_met s) (_is_last s) (_all_finished s)
    (Some v) (_predelay s) (_postdelay s) (_func s) (_condition s).

(** [self._predelay, self._postdelay, self._func = ...] *)
Definition set_delays_func (v : Z * Z * Func) (s : Scheduler) : Scheduler :=
  let '(pre, post, f) := v in
  MkScheduler (_verbose s) (_event_num s) (_predelay_finished s)
    (_postdelay_finished s) (_condition_met s) (_is_last s) (_all_finished s)
    (_start_time s) (Some pre) (Some post) (Some f) (_condition s).

Definition set_condition (v : bool) (s : Scheduler) : Scheduler :=
  MkScheduler (_verbose s) (_event_num s) (_predelay_finished s)
    (_postdelay_finished s) (_condition_met s) (_is_last s) (_all_finished s)
    (_start_time s) (_predelay s) (_postdelay s) (_func s) (Some v).

(** ** Environment *)

(** What a run leaves behind.  [tick] is the number of clock readings made
    before the entry was written, so the reading an entry refers to is
    [clock w tick].  Only [Called] and [Returned] correspond to something the
    program does to the outside; the other entries are bookkeeping for the
    statements below. *)
Inductive obs : Type :=
| Indexed (i : Z)
    (* [params[i]] was evaluated *)
| Started (k : Z) (tick : nat) (pre post : Z) (f : Func)
    (* event [k] became current; its predelay is timed from reading [tick] *)
| PredelayOver (k : Z) (tick : nat)
    (* reading [tick] showed the predelay of event [k] elapsed *)
| ConditionMet (k : Z) (tick : nat)
    (* the condition of event [k] was sampled true; the postdelay is timed
       from reading [tick] *)
| PostdelayOver (k : Z) (tick : nat)
    (* reading [tick] showed the postdelay of event [k] elapsed *)
| Called (k : Z) (tick : nat) (f : Func) (a : Args) (kw : Kwargs)
    (* the user function [f] was entered for event [k], with arguments [a]
       and [kw], after [tick] readings *)
| Returned (k : Z).
    (* that call returned normally *)

Record world : Type := MkWorld {
  clock : nat -> Z;       (* the value of the i-th evaluation of [now()] *)
  ticks : nat;            (* how many evaluations of [now()] happened so far *)
  raises : nat -> Func -> Args -> Kwargs -> bool;
                          (* whether the user function raises when entered
                             after that many readings *)
  trace : list obs        (* newest entry first *)
}.

Definition config : Type := Scheduler * world.

(** ** The monad *)

Definition M (A : Type) : Type := config -> result A * config.

Definition ret {A : Type} (a : A) : M A := fun c => (Ok a, c).

Definition bind {A B : Type} (m : M A) (f : A -> M B) : M B :=
  fun c =>
    match m c with
    | (Ok a, c') => f a c'
    | (Raise e, c') => (Raise e, c')
    end.

Definition raise {A : Type} (e : exn) : M A := fun c => (Raise e, c).

Notation "x <- m ;; k" := (bind m (fun x => k))
  (at level 61, m at next level, right associativity).
Notation "m ;; k" := (bind m (fun _ => k))
  (at level 61, right associativity).

(** [self.x] for an attribute assigned by [__init__]. *)
Definition get {A : Type} (proj : Scheduler -> A) : M A :=
  fun c => (Ok (proj (fst c)), c).

(** [self.x] for an attribute that may not exist yet. *)
Definition attr {A : Type} (proj : Scheduler -> option A) : M A :=
  fun c =>
    match proj (fst c) with
    | Some a => (Ok a, c)
    | None => (Raise AttributeError, c)
    end.

(** [self.x = v] *)
Definition assign (upd : Scheduler -> Scheduler) : M unit :=
  fun c => (Ok tt, (upd (fst c), snd c)).

(** Bookkeeping: how many readings so far; append to the history. *)
Definition stamp : M nat := fun c => (Ok (ticks (snd c)), c).

Definition record (o : obs) : M unit :=
  fun c =>
    let w := snd c in
    (Ok tt, (fst c, MkWorld (clock w) (ticks w) (raises w) (o :: trace w))).

(** [now()] *)
Definition now : M Z :=
  fun c =>
    let w := snd c in
    (Ok (clock w (ticks w)),
     (fst c, MkWorld (clock w) (S (ticks w)) (raises w) (trace w))).

(** [params[i]]; the index used is noted in the history. *)
Definition index (params : list event) (i : Z) : M event :=
  record (Indexed i) ;;
  match py_index params i with
  | Some e => ret e
  | None => raise IndexError
  end.

(** The call of the user function [f] with positional arguments [a] and
    keyword arguments [kw], entered on behalf of event [k]. *)
Definition call (k : Z) (f : Func) (a : Args) (kw : Kwargs) : M unit :=
  i <- stamp ;;
  record (Called k i f a kw) ;;
  (fun c =>
     if raises (snd c) i f a kw then (Raise CallbackError, c) else (Ok tt, c)) ;;
  record (Returned k).

(** ** The methods *)

(** [_get_args_kwargs] *)
Definition _get_args_kwargs (params : list event) : M (Args * Kwargs) :=
  k <- get _event_num ;;
  event_info <- index params k ;;
  ret (args_tuple event_info, kwargs_dict event_info).

(** [_get_condition] *)
Definition _get_condition (params : list event) : M bool :=
  k <- get _event_num ;;
  event_info <- index params k ;;
  ret (condition event_info).

(** [_get_next] *)
Definition _get_next (params : list event) : M (Z * Z * Func) :=
  k <- get _event_num ;;
  assign (set_event_num (k + 1)) ;;
  k <- get _event_num ;;
  event_info <- index params k ;;
  k <- get _event_num ;;
  (if k =? Z.of_nat (length params) - 1
   then assign (set_is_last true)
   else ret tt) ;;
  ret (predelay event_info, postdelay event_info, func event_info).

(** [_update].  The [print] statements guarded by [_verbose] only write to
    standard output and are left out; the [record] steps keep the history
    and do not correspond to any statement of the source. *)
Definition _update (params : list event) : M unit :=
  (* if self._event_num == -1: *)
  k <- get _event_num ;;
  (if k =? -1 then
     i <- stamp ;;
     t <- now ;;
     assign (set_start_time t) ;;
     nxt <- _get_next params ;;
     assign (set_delays_func nxt) ;;
     k <- get _event_num ;;
     record (Started k i (fst (fst nxt)) (snd (fst nxt)) (snd nxt))
   else ret tt) ;;
  (* if not self._predelay_finished
        and now() - self._start_time >= self._predelay: *)
  pf <- get _predelay_finished ;;
  (if negb pf then
     i <- stamp ;;
     t <- now ;;
     st <- attr _start_time ;;
     pre <- attr _predelay ;;
     if t - st >=? pre then
       assign (set_predelay_finished true) ;;
       k <- get _event_num ;;
       record (PredelayOver k i)
     else ret tt
   else ret tt) ;;
  (* if self._predelay_finished and not self._condition_met: *)
  pf <- get _predelay_finished ;;
  cm <- get _condition_met ;;
  (if pf && negb cm then
     c <- _get_condition params ;;
     assign (set_condition c)
   else ret tt) ;;
  (* if self._predelay_finished and not self._condition_met
        and self._condition: *)
  pf <- get _predelay_finished ;;
  cm <- get _condition_met ;;
  (if pf && negb cm then
     c <- attr _condition ;;
     if (c : bool) then
       i <- stamp ;;
       t <- now ;;
       assign (set_start_time t) ;;
       assign (set_condition_met true) ;;
       k <- get _event_num ;;
       record (ConditionMet k i)
     else ret tt
   else ret tt) ;;
  (* if self._predelay_finished and self._condition_met
        and not self._postdelay_finished
        and now() - self._start_time >= self._postdelay: *)
  pf <- get _predelay_finished ;;
  cm <- get _condition_met ;;
  qf <- get _postdelay_finished ;;
  (if pf && cm && negb qf then
     i <- stamp ;;
     t <- now ;;
     st <- attr _start_time ;;
     post <- attr _postdelay ;;
     if t - st >=? post then
       assign (set_postdelay_finished true) ;;
       k <- get _event_num ;;
       record (PostdelayOver k i) ;;
       ak <- _get_args_kwargs params ;;
       f <- attr _func ;;
       call k f (fst ak) (snd ak) ;;
       last <- get _is_last ;;
       if (last : bool) then
         assign (set_all_finished true)
       else
         i <- stamp ;;
         t <- now ;;
         assign (set_start_time t) ;;
         assign (set_predelay_finished false) ;;
         assign (set_postdelay_finished false) ;;
         assign (set_condition_met false) ;;
         nxt <- _get_next params ;;
         assign (set_delays_func nxt) ;;
         k <- get _event_num ;;
         record (Started k i (fst (fst nxt)) (snd (fst nxt)) (snd nxt))
     else ret tt
   else ret tt).

(** [update] *)
Definition update (params : list event) : M bool :=
  af <- get _all_finished ;;
  if py_not params || af then ret true
  else _update params ;; ret false.

(** ** Runs: the driver loop calls [update] again and again *)

Fixpoint run (calls : list (list event)) (c : config) : config :=
  match calls with
  | [] => c
  | params :: rest => run rest (snd (update params c))
  end.

(** A new object in an environment where nothing has happened yet. *)
Definition start (verbose : bool) (clk : nat -> Z)
    (rs : nat -> Func -> Args -> Kwargs -> bool) : config :=
  (init verbose, MkWorld clk 0 rs []).

(** ** Vocabulary of the statements *)

(** What the successive calls of a run return or raise. *)
Fixpoint results (calls : list (list event)) (c : config)
    : list (result bool) :=
  match calls with
  | [] => []
  | params :: rest =>
      fst (update params c) :: results rest (snd (update params c))
  end.

(** Entries of the history that are calls of a user function. *)
Definition is_call (o : obs) : bool :=
  match o with Called _ _ _ _ _ => true | _ => false end.

Definition is_call_of (k : Z) (o : obs) : bool :=
  match o with Called j _ _ _ _ => j =? k | _ => false end.

(** Where the data of an entry written during [update params] come from. *)
Definition from_params (params : list event) (o : obs) : Prop :=
  match o with
  | Started k _ pre post f =>
      exists e, py_index params k = Some e /\
                pre = predelay e /\ post = postdelay e /\ f = func e
  | ConditionMet k _ =>
      exists e, py_index params k = Some e /\ condition e = true
  | Called k _ _ a kw =>
      exists e, py_index params k = Some e /\
                a = args_tuple e /\ kw = kwargs_dict e
  | _ => True
  end.

(** Sequences of length [n] throughout. *)
Definition all_length (n : Z) (calls : list (list event)) : Prop :=
  Forall (fun params => Z.of_nat (length params) = n) calls.

(** The user function of the last event has been entered and has
    returned. *)
Definition final_returned (n : Z) (c : config) : Prop :=
  In (Returned (n - 1)) (trace (snd c)).

(** Event [k] is the current event and its user function has not been
    entered yet. *)
Definition pending (k : Z) (c : config) : Prop :=
  (_event_num (fst c) = -1 /\ k = 0) \/
  (_event_num (fst c) = k /\ 0 <= k /\ _postdelay_finished (fst c) = false).

(** Two events that differ at most in the supplied condition. *)
Definition same_but_condition (e e' : event) : Prop :=
  predelay e = predelay e' /\ postdelay e = postdelay e' /\
  func e = func e' /\ args_tuple e = args_tuple e' /\
  kwargs_dict e = kwargs_dict e'.

(** ** The invariant of a run with sequences of a fixed length *)

Section Invariant.

Variable n : Z.   (* the common length of the supplied sequences *)

(** How far the current event has got, with the readings that prove it. *)
Definition cur_chain (c : config) : Prop :=
  let s := fst c in
  let w := snd c in
  let k := _event_num s in
  exists i0 pre post f,
    _predelay s = Some pre /\ _postdelay s = Some post /\
    _func s = Some f /\
    In (Started k i0 pre post f) (trace w) /\ (i0 < ticks w)%nat /\
    if _predelay_finished s then
      exists i1,
        In (PredelayOver k i1) (trace w) /\ (i0 < i1 < ticks w)%nat /\
        pre <= clock w i1 - clock w i0 /\
        if _condition_met s then
          exists i2,
            In (ConditionMet k i2) (trace w) /\ (i1 < i2 < ticks w)%nat /\
            if _postdelay_finished s then True
            else _start_time s = Some (clock w i2)
        else _postdelay_finished s = false
    else _start_time s = Some (clock w i0) /\
         _condition_met s = false /\ _postdelay_finished s = false.

(** Every call in the history was preceded by the full chain of its event. *)
Definition call_chain (w : world) : Prop :=
  forall k t f a kw,
    In (Called k t f a kw) (trace w) ->
    exists i0 i1 i2 i3 pre post,
      In (Started k i0 pre post f) (trace w) /\
      In (PredelayOver k i1) (trace w) /\
      In (ConditionMet k i2) (trace w) /\
      In (PostdelayOver k i3) (trace w) /\
      (i0 < i1 /\ i1 < i2 /\ i2 < i3 /\ i3 < t)%nat /\
      pre <= clock w i1 - clock w i0 /\
      post <= clock w i3 - clock w i2.

Definition calls_bound (c : config) : Prop :=
  forall k t f a kw,
    In (Called k t f a kw) (trace (snd c)) ->
    0 <= k <= _event_num (fst c) /\
    (t <= ticks (snd c))%nat /\
    (k = _event_num (fst c) -> _postdelay_finished (fst c) = true) /\
    (k < _event_num (fst c) -> (t < ticks (snd c))%nat).

Definition calls_once (w : world) : Prop :=
  forall k, (length (filter (is_call_of k) (trace w)) <= 1)%nat.

Definition calls_prev (c : config) : Prop :=
  forall j, 0 <= j < _event_num (fst c) ->
    exists t f a kw, In (Called j t f a kw) (trace (snd c)).

Definition calls_ordered (w : world) : Prop :=
  forall i t f a kw,
    In (Called i t f a kw) (trace w) -> 1 <= i ->
    exists t' f' a' kw',
      In (Called (i - 1) t' f' a' kw') (trace w) /\ (t' < t)%nat.

Definition returned_inv (c : config) : Prop :=
  (forall k, In (Returned k) (trace (snd c)) ->
     k < _event_num (fst c) \/
     (k = _event_num (fst c) /\ _all_finished (fst c) = true)) /\
  (_all_finished (fst c) = true -> In (Returned (n - 1)) (trace (snd c))).

Definition state_inv (c : config) : Prop :=
  let s := fst c in
  -1 <= _event_num s < n /\
  (_event_num s = -1 ->
     _predelay_finished s = false /\ _condition_met s = false /\
     _postdelay_finished s = false /\ _all_finished s = false /\
     _is_last s = false /\ trace (snd c) = []) /\
  (0 <= _event_num s -> (_is_last s = true <-> _event_num s = n - 1)) /\
  (forall i, In (Indexed i) (trace (snd c)) -> 0 <= i < n) /\
  (_all_finished s = true -> _postdelay_finished s = true) /\
  (0 <= _event_num s -> cur_chain c).

Definition Inv (c : config) : Prop :=
  state_inv c /\ call_chain (snd c) /\ calls_bound c /\
  calls_once (snd c) /\ calls_prev c /\ calls_ordered (snd c) /\
  returned_inv c.

End Invariant.

(** ** Vocabulary of the further properties *)

(** The attributes that [__init__] does not assign have been assigned, or
    no event has been started yet (the first call assigns them before it
    reads them). *)
Definition attrs_ready (c : config) : Prop :=
  _event_num (fst c) = -1 \/
  (_start_time (fst c) <> None /\ _predelay (fst c) <> None /\
   _postdelay (fst c) <> None /\ _func (fst c) <> None).

(** Two events with the same condition and arguments: they differ at most
    in the delays and the function. *)
Definition same_live_fields (e e' : event) : Prop :=
  condition e = condition e' /\ args_tuple e = args_tuple e' /\
  kwargs_dict e = kwargs_dict e'.

(** [params'] is [params] except, at most, for the delays and the function
    of the event at index [k]. *)
Definition differ_at_most_at (k : Z) (params params' : list event) : Prop :=
  length params' = length params /\
  forall i, 0 <= i ->
    py_index params' i = py_index params i \/
    (i = k /\ exists e e', py_index params i = Some e /\
                           py_index params' i = Some e' /\
                           same_live_fields e e').

(** The sum of the delays of a list of events. *)
Fixpoint total_delay (events : list event) : Z :=
  match events with
  | [] => 0
  | e :: rest => predelay e + postdelay e + total_delay rest
  end.

(** An event other than the first became current only after the user
    function of the event before it was entered. *)
Definition started_after (w : world) : Prop :=
  forall k i0 pre post f,
    In (Started k i0 pre post f) (trace w) -> 1 <= k ->
    exists t f' a' kw',
      In (Called (k - 1) t f' a' kw') (trace w) /\ (t <= i0)%nat.

(** Every return of a user function follows its entry. *)
Definition returned_called (w : world) : Prop :=
  forall k, In (Returned k) (trace w) ->
            exists t f a kw, In (Called k t f a kw) (trace w).

(** A call that only read the clock once and found the running delay (the
    predelay, or the postdelay once the condition is latched) not elapsed:
    the object is as before. *)
Definition waits (c c' : config) : Prop :=
  fst c' = fst c /\
  ticks (snd c') = S (ticks (snd c)) /\
  _condition_met (fst c) = _predelay_finished (fst c) /\
  exists s d,
    _start_time (fst c) = Some s /\
    (if _predelay_finished (fst c)
     then _postdelay (fst c) else _predelay (fst c)) = Some d /\
    clock (snd c) (ticks (snd c)) - s < d.

(** User functions that always return. *)
Definition never_raises (rs : nat -> Func -> Args -> Kwargs -> bool) : Prop :=
  forall t f a kw, rs t f a kw = false.

(** A clock whose readings never decrease, and one whose readings exceed
    every bound sooner or later. *)
Definition monotone (clk : nat -> Z) : Prop :=
  forall i j, (i <= j)%nat -> clk i <= clk j.

Definition unbounded (clk : nat -> Z) : Prop :=
  forall z, exists i, z <= clk i.

(** ** Symbolic execution of one call *)

Ltac unfold_update_in H :=
  cbv beta iota zeta delta
    [update _update _get_next _get_condition _get_args_kwargs
     bind ret raise get attr assign stamp record now index call
     set_event_num set_predelay_finished set_postdelay_finished
     set_condition_met set_is_last set_all_finished set_start_time
     set_delays_func set_condition
     _verbose _event_num _predelay_finished _postdelay_finished
     _condition_met _is_last _all_finished _start_time _predelay _postdelay
     _func _condition clock ticks raises trace fst snd negb andb orb py_not]
    in H.

Ltac unfold_update :=
  cbv beta iota zeta delta
    [update _update _get_next _get_condition _get_args_kwargs
     bind ret raise get attr assign stamp record now index call
     set_event_num set_predelay_finished set_postdelay_finished
     set_condition_met set_is_last set_all_finished set_start_time
     set_delays_func set_condition
     _verbose _event_num _predelay_finished _postdelay_finished
     _condition_met _is_last _all_finished _start_time _predelay _postdelay
     _func _condition clock ticks raises trace fst snd negb andb orb py_not]
    in *.

(** Follow the computation in [E], splitting on every test it meets. *)
Ltac exec_in E :=
  unfold_update_in E;
  repeat (match type of E with
          | context [if ?b then _ else _] => is_var b; destruct b
          | context [match ?x with Some _ => _ | None => _ end] =>
              is_var x; destruct x
          | context [if ?b then _ else _] =>
              first [ match goal with H : b = _ |- _ => rewrite H in E end
                    | destruct b eqn:? ]
          | context [match ?x with Some _ => _ | None => _ end] =>
              first [ match goal with H : x = _ |- _ => rewrite H in E end
                    | destruct x eqn:? ]
          end; unfold_update_in E).

Lemma geb_false (a b : Z) : (a >=? b) = false -> a < b.
Proof. rewrite Z.geb_leb. apply Z.leb_gt. Qed.

Lemma geb_true (a b : Z) : (a >=? b) = true -> b <= a.
Proof. rewrite Z.geb_leb. apply Z.leb_le. Qed.

Ltac tidy :=
  repeat match goal with
         | H : (_ =? _) = true |- _ => apply Z.eqb_eq in H
         | H : (_ =? _) = false |- _ => apply Z.eqb_neq in H
         | H : (_ >=? _) = true |- _ => apply geb_true in H
         | H : (_ >=? _) = false |- _ => apply geb_false in H
         | H : Some _ = Some _ |- _ => inversion H; clear H
         end;
  subst.

(** Finishing one path: the equation [E] has become an equation between the
    computed and the named result. *)
Ltac finish E := inversion E; subst; clear E; tidy; unfold_update.

Ltac prefix_of l tr :=
  lazymatch l with
  | tr => constr:(@nil obs)
  | ?x :: ?l' => let p := prefix_of l' tr in constr:(x :: p)
  end.

Ltac give_new :=
  lazymatch goal with
  | |- exists new, ?l = new ++ ?tr /\ _ =>
      let p := prefix_of l tr in exists p; split; [reflexivity|]
  end.

Lemma update_any (params : list event) (c c' : config) (r : result bool) :
  update params c = (r, c') ->
  _event_num (fst c) <= _event_num (fst c') /\
  clock (snd c') = clock (snd c) /\
  raises (snd c') = raises (snd c) /\
  (ticks (snd c) <= ticks (snd c'))%nat /\
  exists new,
    trace (snd c') = new ++ trace (snd c) /\
    Forall (from_params params) new /\
    (length (filter is_call new) <= 1)%nat.
Proof.
  destruct c as [[v en pf qf cm il af st pre post fn cnd] [clk tk rs tr]].
  intro E. exec_in E.
  all: finish E.
  all: split; [lia|]; split; [reflexivity|]; split; [reflexivity|];
    split; [lia|].
  all: give_new.
  all: split; [|simpl; lia].
  all: repeat constructor; simpl; eauto.
Qed.

Lemma py_index_None (A : Type) (l : list A) (i : Z) :
  py_index l i = None -> i < - Z.of_nat (length l) \/ Z.of_nat (length l) <= i.
Proof.
  unfold py_index.
  destruct ((0 <=? i) && (i <? Z.of_nat (length l))) eqn:E1.
  - apply andb_prop in E1. destruct E1 as [E1 E2].
    apply Z.leb_le in E1. apply Z.ltb_lt in E2.
    intro H. apply nth_error_None in H. lia.
  - destruct ((- Z.of_nat (length l) <=? i) && (i <? 0)) eqn:E2.
    + apply andb_prop in E2. destruct E2 as [E2 E3].
      apply Z.leb_le in E2. apply Z.ltb_lt in E3.
      intro H. apply nth_error_None in H. lia.
    + intros _. apply andb_false_iff in E1. apply andb_false_iff in E2.
      rewrite Z.leb_gt, Z.ltb_ge in E1. rewrite Z.leb_gt, Z.ltb_ge in E2.
      lia.
Qed.

Ltac open_inv :=
  repeat match goal with
         | H : _ /\ _ |- _ => destruct H
         | H : exists _, _ |- _ => destruct H
         end.

Ltac split_in H :=
  simpl in H;
  repeat match type of H with
         | _ \/ _ => destruct H as [H|H]
         end;
  try discriminate H; try (inversion H; subst; clear H).

(** Bring the facts of the invariant that apply on the current path into
    the context. *)
Ltac use_inv :=
  change (-1 + 1) with 0 in *;
  repeat match goal with
         | H : py_index _ _ = None |- _ => apply py_index_None in H
         | H : -1 = -1 -> _ |- _ => specialize (H eq_refl)
         | H : 0 <= ?k -> _ |- _ =>
             let H0 := fresh in
             assert (H0 : 0 <= k) by lia; specialize (H H0); clear H0
         end;
  open_inv; tidy.

Ltac close :=
  lazymatch goal with
  | |- In _ _ => simpl; solve [eauto 30]
  | |- _ = _ => first [reflexivity | eassumption | congruence | lia]
  | |- _ => first [lia | eassumption | tauto]
  end.

Ltac splits :=
  repeat lazymatch goal with
         | |- exists _, _ => eexists
         | |- _ /\ _ => split
         end.

(** The paths of one call from a configuration that satisfies the
    invariant, with the impossible ones removed. *)
Ltac inv_paths :=
  lazymatch goal with
  | |- forall (n : Z) (params : list event) (c c' : config) (r : result bool),
        1 <= n -> Z.of_nat (length params) = n -> Inv n c ->
        update params c = (r, c') -> _ =>
      intros n params c c' r;
      destruct c as [[v en pf qf cm il af st pre post fn cnd] [clk tk rs tr]];
      intros Hn Hlen HI E;
      pose proof HI as HI0;
      destruct HI as (HS & HCC & HCB & HCO & HCP & HCR & HR);
      pose proof HS as HS0;
      destruct HS as (HS1 & HS2 & HS3 & HS4 & HS5 & HS6);
      unfold cur_chain in HS6;
      assert (Hne : py_not params = false)
        by (destruct params; [simpl in Hlen; lia|reflexivity]);
      unfold update in E; rewrite Hne in E;
      exec_in E;
      finish E;
      simpl in HS2, HS3, HS4, HS5, HS6;
      use_inv;
      try discriminate;
      try (exfalso; lia)
  end.

Lemma update_state_inv :
  forall (n : Z) (params : list event) (c c' : config) (r : result bool),
  1 <= n -> Z.of_nat (length params) = n -> Inv n c ->
  update params c = (r, c') ->
  state_inv n c' /\ (r = Ok true \/ r = Ok false \/ r = Raise CallbackError).
Proof.
  inv_paths.
  all: try (split; [exact HS0|tauto]).
  all: split; [|tauto].
  all: unfold state_inv, cur_chain; unfold_update.
  all: split; [lia|].
  all: split; [intro; try (exfalso; lia); repeat split; reflexivity|].
  all: split;
    [intro; split; intro; first [lia | discriminate | reflexivity | tauto]|].
  all: split; [intros i Hi; split_in Hi; first [lia | auto]|].
  all: split; [intro; first [reflexivity | discriminate | tauto]|].
  all: intro; splits.
  all: close.
Qed.

Lemma update_call_chain :
  forall (n : Z) (params : list event) (c c' : config) (r : result bool),
  1 <= n -> Z.of_nat (length params) = n -> Inv n c ->
  update params c = (r, c') ->
  call_chain (snd c').
Proof.
  inv_paths.
  all: try exact HCC.
  all: unfold call_chain in *; unfold_update.
  all: intros k0 t0 f0 a0 kw0 Hin; split_in Hin.
  all: try (destruct (HCC _ _ _ _ _ Hin) as (j0 & j1 & j2 & j3 & p0 & p1 & Hc);
            open_inv; exists j0, j1, j2, j3, p0, p1; splits; close).
  all: splits.
  all: close.
Qed.

Lemma update_calls_bound :
  forall (n : Z) (params : list event) (c c' : config) (r : result bool),
  1 <= n -> Z.of_nat (length params) = n -> Inv n c ->
  update params c = (r, c') ->
  calls_bound c'.
Proof.
  inv_paths.
  all: try exact HCB.
  all: unfold calls_bound in *; unfold_update.
  all: intros k0 t0 f0 a0 kw0 Hin; split_in Hin.
  all: try (specialize (HCB _ _ _ _ _ Hin); open_inv).
  all: splits.
  all: try lazymatch goal with |- _ -> _ => intro end.
  all: try close.
  all: try (exfalso; intuition (lia || congruence)).
  all: try (intuition (lia || congruence)).
Qed.

Lemma no_call_filter (k : Z) (tr : list obs) :
  (forall t f a kw, ~ In (Called k t f a kw) tr) ->
  filter (is_call_of k) tr = [].
Proof.
  induction tr as [|o tr IH]; intro H; [reflexivity|].
  simpl. destruct (is_call_of k o) eqn:E.
  - destruct o; try discriminate. simpl in E. apply Z.eqb_eq in E. subst.
    exfalso. eapply H. left. reflexivity.
  - apply IH. intros t f a kw Hin. eapply H. right. exact Hin.
Qed.

Lemma update_calls_once :
  forall (n : Z) (params : list event) (c c' : config) (r : result bool),
  1 <= n -> Z.of_nat (length params) = n -> Inv n c ->
  update params c = (r, c') ->
  calls_once (snd c').
Proof.
  inv_paths.
  all: try exact HCO.
  all: unfold calls_once in *; unfold_update.
  all: intro k0; cbn [filter is_call_of]; try apply HCO.
  all: lazymatch goal with
       | |- context [if ?b then _ else _] => destruct b eqn:Hk
       end; [|simpl; first [lia | apply HCO]].
  all: apply Z.eqb_eq in Hk; subst.
  all: try (simpl; lia).
  all: rewrite no_call_filter; [simpl; lia|].
  all: intros t0 f0 a0 kw0 Hin; apply HCB in Hin; unfold_update.
  all: destruct Hin as (_ & _ & Hq & _); specialize (Hq eq_refl).
  all: discriminate.
Qed.


Lemma update_calls_prev :
  forall (n : Z) (params : list event) (c c' : config) (r : result bool),
  1 <= n -> Z.of_nat (length params) = n -> Inv n c ->
  update params c = (r, c') ->
  calls_prev c'.
Proof.
  inv_paths.
  all: try exact HCP.
  all: unfold calls_prev in *; unfold_update.
  all: intros j Hj.
  all: try (exfalso; lia).
  all: try (destruct (HCP j Hj) as (t0 & f0 & a0 & kw0 & Hin);
            exists t0, f0, a0, kw0; close).
  all: lazymatch type of Hj with
       | _ <= _ < ?k + 1 =>
           destruct (Z.eq_dec j k) as [->|Hne'];
           [splits; close
           |first [exfalso; lia
                  |destruct (HCP j ltac:(lia)) as (t0 & f0 & a0 & kw0 & Hin);
                   exists t0, f0, a0, kw0; close]]
       end.
Qed.

Lemma update_calls_ordered :
  forall (n : Z) (params : list event) (c c' : config) (r : result bool),
  1 <= n -> Z.of_nat (length params) = n -> Inv n c ->
  update params c = (r, c') ->
  calls_ordered (snd c').
Proof.
  inv_paths.
  all: try exact HCR.
  all: unfold calls_ordered in *; unfold_update.
  all: intros i0 t0 f0 a0 kw0 Hin Hi; split_in Hin.
  all: try (destruct (HCR _ _ _ _ _ Hin Hi) as (t1 & f1 & a1 & kw1 & Hp & Hlt);
            exists t1, f1, a1, kw1; split; [close|exact Hlt]).
  all: try (exfalso; lia).
  all: lazymatch goal with
       | |- exists t' f' a' kw', In (Called (?k - 1) _ _ _ _) _ /\ _ =>
           destruct (HCP (k - 1) ltac:(unfold_update; lia))
             as (t1 & f1 & a1 & kw1 & Hp);
           exists t1, f1, a1, kw1; split; [close|]
       end.
  all: apply HCB in Hp; unfold_update.
  all: destruct Hp as (_ & _ & _ & Hp); specialize (Hp ltac:(lia)); lia.
Qed.

Lemma update_returned_inv :
  forall (n : Z) (params : list event) (c c' : config) (r : result bool),
  1 <= n -> Z.of_nat (length params) = n -> Inv n c ->
  update params c = (r, c') ->
  returned_inv n c'.
Proof.
  inv_paths.
  all: try exact HR.
  all: destruct HR as (HR1 & HR2); unfold returned_inv; unfold_update.
  all: split;
    [intros k0 Hin; split_in Hin;
     try (apply HR1 in Hin; lia || (destruct Hin as [Hin|[Hin Hin']];
                                     [lia|discriminate || lia]))
    |intro Haf; first [discriminate | specialize (HR2 Haf); close | idtac]].
  all: try (intuition (lia || reflexivity || discriminate)).
  all: try lazymatch goal with
           | |- In (Returned ?x) (Returned ?y :: _) =>
               replace x with y by (intuition lia); left; reflexivity
           end.
Qed.

Lemma update_Inv (n : Z) (params : list event) (c : config) :
  1 <= n -> Z.of_nat (length params) = n -> Inv n c ->
  Inv n (snd (update params c)).
Proof.
  intros Hn Hlen HI.
  destruct (update params c) as [r c'] eqn:E. simpl.
  unfold Inv.
  split; [eapply update_state_inv; eassumption|].
  split; [eapply update_call_chain; eassumption|].
  split; [eapply update_calls_bound; eassumption|].
  split; [eapply update_calls_once; eassumption|].
  split; [eapply update_calls_prev; eassumption|].
  split; [eapply update_calls_ordered; eassumption|].
  eapply update_returned_inv; eassumption.
Qed.

Lemma init_Inv (n : Z) (verbose : bool) (w : world) :
  1 <= n -> trace w = [] -> Inv n (init verbose, w).
Proof.
  intros Hn Htr. destruct w as [clk tk rs tr]. simpl in Htr. subst tr.
  unfold Inv, state_inv, call_chain, calls_bound, calls_once, calls_prev,
    calls_ordered, returned_inv. simpl.
  repeat split; intros; try lia; try contradiction; try discriminate.
Qed.

Lemma run_Inv (n : Z) (calls : list (list event)) :
  1 <= n -> all_length n calls ->
  forall c, Inv n c -> Inv n (run calls c).
Proof.
  intros Hn Hall. induction Hall as [|params calls Hlen Hall IH];
    intros c HI; simpl.
  - exact HI.
  - apply IH. apply update_Inv; assumption.
Qed.

(** Every entry of the history was written during one of the calls, from
    the sequence supplied to that call. *)
Lemma run_from_params (calls : list (list event)) :
  forall c o,
    In o (trace (snd (run calls c))) ->
    In o (trace (snd c)) \/
    exists params, In params calls /\ from_params params o.
Proof.
  induction calls as [|params calls IH]; intros c o Hin; simpl in *.
  - left. exact Hin.
  - destruct (IH _ _ Hin) as [Hold|(p & Hp & Hfrom)].
    + destruct (update params c) as [r c'] eqn:E. simpl in Hold.
      destruct (update_any _ _ _ _ E) as (_ & _ & _ & _ & new & Hnew & Hall & _).
      rewrite Hnew in Hold. apply in_app_or in Hold.
      destruct Hold as [Hold|Hold].
      * right. exists params. split; [left; reflexivity|].
        rewrite Forall_forall in Hall. apply Hall. exact Hold.
      * left. exact Hold.
    + right. exists p. split; [right; exact Hp|exact Hfrom].
Qed.

Lemma run_event_num (calls : list (list event)) :
  forall c, _event_num (fst c) <= _event_num (fst (run calls c)).
Proof.
  induction calls as [|params calls IH]; intro c; simpl.
  - lia.
  - destruct (update params c) as [r c'] eqn:E. simpl.
    pose proof (update_any _ _ _ _ E) as (Hle & _).
    specialize (IH c'). lia.
Qed.

Lemma run_clock (calls : list (list event)) :
  forall c, clock (snd (run calls c)) = clock (snd c) /\
            raises (snd (run calls c)) = raises (snd c).
Proof.
  induction calls as [|params calls IH]; intro c; simpl.
  - split; reflexivity.
  - destruct (update params c) as [r c'] eqn:E. simpl.
    pose proof (update_any _ _ _ _ E) as (_ & Hc & Hr & _).
    destruct (IH c') as [IH1 IH2]. split; congruence.
Qed.

(** ** Properties of a single call, from any configuration *)

Ltac name_new H :=
  lazymatch type of H with
  | ?l = ?new ++ ?tr =>
      let p := prefix_of l tr in
      change l with (p ++ tr) in H; apply app_inv_tail in H; subst new
  end.

(** C8: a call with an empty sequence returns [True] and changes nothing:
    no exception, no callback, the object and the environment are as
    before. *)
Theorem update_empty_sequence (c : config) :
  update [] c = (Ok true, c).
Proof. destruct c as [s w]. reflexivity. Qed.

(** A call with a non-empty sequence returns [True] only when
    [_all_finished] was already set, and then does nothing. *)
Lemma update_true_inv (params : list event) (c c' : config) :
  params <> [] -> update params c = (Ok true, c') ->
  _all_finished (fst c) = true /\ c' = c.
Proof.
  intros Hne E. destruct params as [|e params]; [congruence|].
  destruct c as [s w]. unfold update, bind, get, ret in E. simpl in E.
  destruct (_all_finished s) eqn:Haf.
  - inversion E. split; [exact Haf|reflexivity].
  - destruct (_update (e :: params) (s, w)) as [[u|x] c2]; discriminate.
Qed.

Lemma update_finished (params : list event) (c : config) :
  _all_finished (fst c) = true -> update params c = (Ok true, c).
Proof.
  intro Haf. destruct c as [s w]. unfold update, bind, get, ret. simpl in *.
  rewrite Haf. rewrite orb_true_r. reflexivity.
Qed.

(** C3, amended: once a call supplied with a non-empty sequence has returned
    [True], every later call, with any sequence, returns [True] as well and
    changes nothing. *)
Theorem finished_stays_finished (params : list event) (c c' : config) :
  params <> [] -> update params c = (Ok true, c') ->
  c' = c /\ forall params', update params' c' = (Ok true, c').
Proof.
  intros Hne E. destruct (update_true_inv _ _ _ Hne E) as [Haf ->].
  split; [reflexivity|]. intro params'. apply update_finished. exact Haf.
Qed.

(** What follows the entry into the user function, in the call that
    enters it. *)
Lemma call_outcome (params : list event) (c c' : config)
    (r : result bool) (new : list obs) (k : Z) (t : nat) (f : Func)
    (a : Args) (kw : Kwargs) :
  update params c = (r, c') ->
  trace (snd c') = new ++ trace (snd c) ->
  In (Called k t f a kw) new ->
  if raises (snd c) t f a kw then
    r = Raise CallbackError /\
    _event_num (fst c') = k /\
    _postdelay_finished (fst c') = true /\
    _all_finished (fst c') = false /\
    (forall params', update params' c' = (Ok (py_not params'), c'))
  else
    In (Returned k) new /\ r <> Raise CallbackError.
Proof.
  destruct c as [[v en pf qf cm il af st pre post fn cnd] [clk tk rs tr]].
  intros E Hnew Hin.
  destruct params as [|e0 params]; exec_in E.
  all: finish E.
  all: name_new Hnew.
  all: split_in Hin.
  all: change (-1 + 1) with 0 in *.
  all: lazymatch goal with
       | H : ?b = _ |- if ?b then _ else _ => rewrite H
       end.
  all: try (split; [simpl; tauto|discriminate]).
  all: split; [reflexivity|]; split; [reflexivity|]; split; [reflexivity|];
    split; [reflexivity|].
  all: intros [|e' params']; [reflexivity|]; unfold_update.
  all: try lazymatch goal with
           | H : ?x <> -1 |- _ =>
               destruct (x =? -1) eqn:Hen;
               [apply Z.eqb_eq in Hen; contradiction|]
           end.
  all: reflexivity.
Qed.

(** C2, amended: when the user function raises, the exception leaves
    [update]; the failed event is still the current one, but
    [_postdelay_finished] is already set, so no later call enters that
    function (or any other) again: every later call returns without any
    change, with [False] for a non-empty sequence. *)
Theorem callback_failure_is_final (params : list event) (c c' : config)
    (r : result bool) (new : list obs) (k : Z) (t : nat) (f : Func)
    (a : Args) (kw : Kwargs) :
  update params c = (r, c') ->
  trace (snd c') = new ++ trace (snd c) ->
  In (Called k t f a kw) new ->
  raises (snd c) t f a kw = true ->
  r = Raise CallbackError /\
  _event_num (fst c') = k /\
  _postdelay_finished (fst c') = true /\
  _all_finished (fst c') = false /\
  forall params', update params' c' = (Ok (py_not params'), c').
Proof.
  intros E Hnew Hin Hraise.
  pose proof (call_outcome _ _ _ _ _ _ _ _ _ _ E Hnew Hin) as H.
  rewrite Hraise in H. exact H.
Qed.

(** C7: the arguments with which the user function is entered are those of
    the event at the current index in the sequence supplied to this very
    call, whatever the earlier calls supplied. *)
Theorem callback_arguments_are_fresh (params : list event) (c c' : config)
    (r : result bool) (new : list obs) (k : Z) (t : nat) (f : Func)
    (a : Args) (kw : Kwargs) :
  update params c = (r, c') ->
  trace (snd c') = new ++ trace (snd c) ->
  In (Called k t f a kw) new ->
  exists e, py_index params k = Some e /\
            a = args_tuple e /\ kw = kwargs_dict e.
Proof.
  intros E Hnew Hin.
  destruct (update_any _ _ _ _ E) as (_ & _ & _ & _ & new' & Hnew' & Hall & _).
  rewrite Hnew' in Hnew. apply app_inv_tail in Hnew. subst new'.
  rewrite Forall_forall in Hall. exact (Hall _ Hin).
Qed.

(** ** Properties of runs *)

Lemma run_app (calls1 calls2 : list (list event)) :
  forall c, run (calls1 ++ calls2) c = run calls2 (run calls1 c).
Proof.
  induction calls1 as [|params calls1 IH]; intro c; simpl;
    [reflexivity|apply IH].
Qed.

Lemma start_Inv (n : Z) (verbose : bool) (clk : nat -> Z)
    (rs : nat -> Func -> Args -> Kwargs -> bool) :
  1 <= n -> Inv n (start verbose clk rs).
Proof. intro Hn. apply init_Inv; [exact Hn|reflexivity]. Qed.

Lemma reach_Inv (n : Z) (calls : list (list event)) (verbose : bool)
    (clk : nat -> Z) (rs : nat -> Func -> Args -> Kwargs -> bool) :
  1 <= n -> all_length n calls ->
  Inv n (run calls (start verbose clk rs)).
Proof.
  intros Hn Hall. apply run_Inv; [exact Hn|exact Hall|].
  apply start_Inv. exact Hn.
Qed.

(** C9: the event number never decreases from one point of a run to a later
    one, and the user function of event [i] is entered only after that of
    event [i - 1] was (at a strictly earlier point of the clock-reading
    count). *)
Theorem events_advance_in_order (n : Z) (calls1 calls2 : list (list event))
    (verbose : bool) (clk : nat -> Z)
    (rs : nat -> Func -> Args -> Kwargs -> bool) :
  1 <= n -> all_length n (calls1 ++ calls2) ->
  let c1 := run calls1 (start verbose clk rs) in
  let c2 := run (calls1 ++ calls2) (start verbose clk rs) in
  _event_num (fst c1) <= _event_num (fst c2) /\
  forall i t f a kw,
    1 <= i -> In (Called i t f a kw) (trace (snd c2)) ->
    exists t' f' a' kw',
      In (Called (i - 1) t' f' a' kw') (trace (snd c2)) /\ (t' < t)%nat.
Proof.
  intros Hn Hall c1 c2. split.
  - unfold c2. rewrite run_app. apply run_event_num.
  - intros i t f a kw Hi Hin.
    pose proof (reach_Inv _ _ verbose clk rs Hn Hall)
      as (_ & _ & _ & _ & _ & HCR & _).
    exact (HCR _ _ _ _ _ Hin Hi).
Qed.

(** C10: when every call supplies [n >= 1] events, every index used on the
    supplied sequence lies in [0, n - 1], and [update] ends by returning or
    with the exception of the user function, never with an [IndexError]
    (or an [AttributeError]). *)
Theorem indexing_is_in_range (n : Z) (calls : list (list event))
    (params : list event) (verbose : bool) (clk : nat -> Z)
    (rs : nat -> Func -> Args -> Kwargs -> bool) :
  1 <= n -> all_length n calls -> Z.of_nat (length params) = n ->
  let c := run calls (start verbose clk rs) in
  -1 <= _event_num (fst (snd (update params c))) <= n - 1 /\
  (forall i, In (Indexed i) (trace (snd (snd (update params c)))) ->
             0 <= i <= n - 1) /\
  (fst (update params c) = Ok true \/
   fst (update params c) = Ok false \/
   fst (update params c) = Raise CallbackError).
Proof.
  intros Hn Hall Hlen c.
  pose proof (reach_Inv _ _ verbose clk rs Hn Hall) as HI. fold c in HI.
  destruct (update params c) as [r c'] eqn:E. simpl.
  destruct (update_state_inv _ _ _ _ _ Hn Hlen HI E)
    as [(H1 & H2 & _ & H4 & _ & _) Hr].
  split; [lia|]. split; [|exact Hr].
  intros i Hi. apply H4 in Hi. lia.
Qed.

Lemma finished_iff (n : Z) (c : config) :
  Inv n c -> (_all_finished (fst c) = true <-> final_returned n c).
Proof.
  intros ((H1 & _) & _ & _ & _ & _ & _ & HR1 & HR2). unfold final_returned.
  split; [exact HR2|].
  intro Hin. apply HR1 in Hin. destruct Hin as [Hlt|[_ Haf]]; [lia|exact Haf].
Qed.

(** C1, amended: with sequences of a fixed length [n >= 1], [update] returns
    [True] exactly on the calls made after the call in which the user
    function of the last event was entered and returned, and nothing changes
    then; on every call up to and including that one it returns [False], or
    ends with the exception of the user function.  In particular, in the very
    call that enters the last user function, [update] returns [False] when
    the function returns, and the exception leaves [update] when it
    raises. *)
Theorem update_result (n : Z) (calls : list (list event))
    (params : list event) (verbose : bool) (clk : nat -> Z)
    (rs : nat -> Func -> Args -> Kwargs -> bool) (r : result bool)
    (c' : config) :
  1 <= n -> all_length n calls -> Z.of_nat (length params) = n ->
  update params (run calls (start verbose clk rs)) = (r, c') ->
  let c := run calls (start verbose clk rs) in
  (final_returned n c -> r = Ok true /\ c' = c) /\
  (~ final_returned n c -> r = Ok false \/ r = Raise CallbackError) /\
  (forall new t f a kw,
     trace (snd c') = new ++ trace (snd c) ->
     In (Called (n - 1) t f a kw) new ->
     ~ final_returned n c /\
     if raises (snd c) t f a kw
     then r = Raise CallbackError /\ ~ final_returned n c'
     else r = Ok false /\ final_returned n c').
Proof.
  intros Hn Hall Hlen E c. fold c in E.
  pose proof (reach_Inv _ _ verbose clk rs Hn Hall) as HI. fold c in HI.
  pose proof (update_Inv _ _ _ Hn Hlen HI) as HI'. rewrite E in HI'.
  simpl in HI'.
  pose proof (finished_iff _ _ HI) as Hfin.
  pose proof (finished_iff _ _ HI') as Hfin'.
  destruct (update_state_inv _ _ _ _ _ Hn Hlen HI E) as [_ Hr].
  assert (Hne : params <> []) by (intros ->; simpl in Hlen; lia).
  assert (Htrue : r = Ok true -> _all_finished (fst c) = true /\ c' = c).
  { intros ->. exact (update_true_inv _ _ _ Hne E). }
  split; [|split].
  - intro Hf. apply Hfin in Hf. rewrite (update_finished params c Hf) in E.
    inversion E. split; reflexivity.
  - intro Hnf. destruct Hr as [Hr|Hr]; [|exact Hr].
    exfalso. apply Hnf, Hfin, Htrue, Hr.
  - intros new t f a kw Hnew Hin.
    assert (Hnf : ~ final_returned n c).
    { intro Hf. apply Hfin in Hf. rewrite (update_finished params c Hf) in E.
      inversion E; subst c'. symmetry in Hnew.
      rewrite <- (app_nil_l (trace (snd c))) in Hnew at 2.
      apply app_inv_tail in Hnew. subst new. contradiction. }
    split; [exact Hnf|].
    pose proof (call_outcome _ _ _ _ _ _ _ _ _ _ E Hnew Hin) as Hout.
    destruct (raises (snd c) t f a kw).
    + destruct Hout as (-> & _ & _ & Haf & _). split; [reflexivity|].
      intro Hf. apply Hfin' in Hf. congruence.
    + destruct Hout as (Hret & Hnr). split.
      * destruct Hr as [Hr|[Hr|Hr]]; [|exact Hr|contradiction].
        exfalso. apply Hnf, Hfin, Htrue, Hr.
      * unfold final_returned. rewrite Hnew. apply in_or_app. left.
        exact Hret.
Qed.

Lemma reach_from_params (calls : list (list event)) (verbose : bool)
    (clk : nat -> Z) (rs : nat -> Func -> Args -> Kwargs -> bool) (o : obs) :
  In o (trace (snd (run calls (start verbose clk rs)))) ->
  exists params, In params calls /\ from_params params o.
Proof.
  intro Hin. destruct (run_from_params calls _ _ Hin) as [H|H].
  - contradiction.
  - exact H.
Qed.

(** C4: in a run with sequences of a fixed length, the user function of each
    event is entered at most once, one call of [update] enters at most one
    user function, and an entry for event [k] comes only after, in this
    order: the reading from which the predelay is timed, a later reading at
    which the predelay (as supplied when the event became current) had
    elapsed, a call in which the supplied condition of event [k] was true,
    followed by the reading from which the postdelay is timed, and a later
    reading at which the postdelay had elapsed.  So an event whose condition
    is false in every supplied sequence never has its function entered. *)
Theorem callback_discipline (n : Z) (calls : list (list event))
    (verbose : bool) (clk : nat -> Z)
    (rs : nat -> Func -> Args -> Kwargs -> bool) :
  1 <= n -> all_length n calls ->
  let c := run calls (start verbose clk rs) in
  (forall k, (length (filter (is_call_of k) (trace (snd c))) <= 1)%nat) /\
  (forall params r c',
     update params c = (r, c') ->
     exists new, trace (snd c') = new ++ trace (snd c) /\
                 (length (filter is_call new) <= 1)%nat) /\
  (forall k t f a kw,
     In (Called k t f a kw) (trace (snd c)) ->
     exists i0 i1 i2 i3 pre post,
       In (Started k i0 pre post f) (trace (snd c)) /\
       In (PredelayOver k i1) (trace (snd c)) /\
       In (ConditionMet k i2) (trace (snd c)) /\
       In (PostdelayOver k i3) (trace (snd c)) /\
       (i0 < i1 /\ i1 < i2 /\ i2 < i3 /\ i3 < t)%nat /\
       pre <= clk i1 - clk i0 /\
       post <= clk i3 - clk i2 /\
       (exists p e, In p calls /\ py_index p k = Some e /\
                    pre = predelay e /\ post = postdelay e) /\
       (exists p e, In p calls /\ py_index p k = Some e /\
                    condition e = true)) /\
  (forall k,
     (forall p e, In p calls -> py_index p k = Some e ->
                  condition e = false) ->
     forall t f a kw, ~ In (Called k t f a kw) (trace (snd c))).
Proof.
  intros Hn Hall c.
  pose proof (reach_Inv _ _ verbose clk rs Hn Hall) as HI. fold c in HI.
  destruct HI as (_ & HCC & _ & HCO & _).
  assert (Hclk : clock (snd c) = clk) by apply run_clock.
  unfold call_chain in HCC. rewrite Hclk in HCC.
  split; [exact HCO|]. split; [|split].
  - intros params r c' E.
    destruct (update_any _ _ _ _ E) as (_ & _ & _ & _ & new & Hnew & _ & Hone).
    exists new. split; assumption.
  - intros k t f a kw Hin.
    destruct (HCC _ _ _ _ _ Hin)
      as (i0 & i1 & i2 & i3 & pre & post & Hs & Hp & Hc & Hq & Hlt & Hd1 & Hd2).
    exists i0, i1, i2, i3, pre, post.
    repeat (split; [assumption|]). split.
    + destruct (reach_from_params _ _ _ _ _ Hs) as (p & Hin' & e & He & H1 & H2 & _).
      exists p, e. repeat split; assumption.
    + destruct (reach_from_params _ _ _ _ _ Hc) as (p & Hin' & e & He & H1).
      exists p, e. repeat split; assumption.
  - intros k Hfalse t f a kw Hin.
    destruct (HCC _ _ _ _ _ Hin)
      as (i0 & i1 & i2 & i3 & pre & post & _ & _ & Hc & _).
    destruct (reach_from_params _ _ _ _ _ Hc) as (p & Hin' & e & He & H1).
    rewrite (Hfalse p e Hin' He) in H1. discriminate.
Qed.

Lemma zero_delay_step :
  forall (n : Z) (params : list event) (c c' : config) (r : result bool),
  1 <= n -> Z.of_nat (length params) = n -> Inv n c ->
  update params c = (r, c') ->
  forall k e,
    (forall i j, (i <= j)%nat -> clock (snd c) i <= clock (snd c) j) ->
    pending k c ->
    (forall i0 pre post f,
       In (Started k i0 pre post f) (trace (snd c)) -> pre = 0 /\ post = 0) ->
    py_index params k = Some e ->
    predelay e = 0 -> postdelay e = 0 -> condition e = true ->
    exists new t f,
      trace (snd c') = new ++ trace (snd c) /\
      In (Called k t f (args_tuple e) (kwargs_dict e)) new.
Proof.
  inv_paths.
  all: intros kk ee Hmono Hpend Hzero Hidx Hpre Hpost Hcond.
  all: unfold pending in Hpend; unfold_update.
  all: destruct Hpend as [[Hp1 Hp2]|(Hp1 & Hp2 & Hp3)]; try discriminate;
    try (exfalso; lia); subst.
  all: try (specialize (HS5 eq_refl); discriminate).
  all: repeat match goal with
              | H1 : ?x = Some _, H2 : ?x = Some _ |- _ =>
                  rewrite H1 in H2; inversion H2; subst; clear H2
              end.
  all: try congruence.
  all: try match goal with
           | H : In (Started _ _ _ _ _) _ |- _ =>
               destruct (Hzero _ _ _ _ H); subst
           end.
  all: try (exfalso;
            match goal with
            | H : ?ck ?a - ?ck ?b < _ |- _ =>
                pose proof (Hmono b a ltac:(lia)); lia
            end).
  all: lazymatch goal with
       | |- exists new t f, ?l = new ++ ?tr /\ _ =>
           let p := prefix_of l tr in
           exists p; eexists; eexists; split; [reflexivity|close]
       end.
Qed.

(** C5: an event whose delays are zero and whose supplied condition is true
    has its user function entered in the very call that finds it current,
    with the arguments of that call: no time has to pass between the
    readings of the clock.  Elapsed time is never negative: a reading is
    not smaller than an earlier one. *)
Theorem zero_delay_event_completes (n : Z) (calls : list (list event))
    (params : list event) (verbose : bool) (clk : nat -> Z)
    (rs : nat -> Func -> Args -> Kwargs -> bool) (k : Z) (e : event) :
  1 <= n -> all_length n calls -> Z.of_nat (length params) = n ->
  (forall i j, (i <= j)%nat -> clk i <= clk j) ->
  (forall p e', In p (params :: calls) -> py_index p k = Some e' ->
                predelay e' = 0 /\ postdelay e' = 0) ->
  pending k (run calls (start verbose clk rs)) ->
  py_index params k = Some e -> condition e = true ->
  let c := run calls (start verbose clk rs) in
  exists new t f,
    trace (snd (snd (update params c))) = new ++ trace (snd c) /\
    In (Called k t f (args_tuple e) (kwargs_dict e)) new.
Proof.
  intros Hn Hall Hlen Hmono Hzero Hpend Hidx Hcond c. fold c in Hpend.
  pose proof (reach_Inv _ _ verbose clk rs Hn Hall) as HI. fold c in HI.
  assert (Hclk : clock (snd c) = clk) by apply run_clock.
  destruct (update params c) as [r c'] eqn:E. simpl.
  destruct (Hzero params e (or_introl eq_refl) Hidx) as [Hpre Hpost].
  eapply (zero_delay_step _ _ _ _ _ Hn Hlen HI E); try eassumption.
  - rewrite Hclk. exact Hmono.
  - intros i0 pre post f Hin.
    destruct (reach_from_params _ _ _ _ _ Hin)
      as (p & Hp & e' & He' & -> & -> & _).
    apply (Hzero p e'); [right; exact Hp|exact He'].
Qed.

(** ** Sampling of the condition *)

Lemma nth_error_Forall2 (A : Type) (R : A -> A -> Prop) (l l' : list A) :
  Forall2 R l l' ->
  forall i, match nth_error l i, nth_error l' i with
            | Some a, Some b => R a b
            | None, None => True
            | _, _ => False
            end.
Proof.
  induction 1 as [|a b l l' Hab HF IH]; intros [|i]; simpl; auto.
  apply IH.
Qed.

Lemma py_index_Forall2 (A : Type) (R : A -> A -> Prop) (l l' : list A)
    (i : Z) :
  Forall2 R l l' ->
  match py_index l i, py_index l' i with
  | Some a, Some b => R a b
  | None, None => True
  | _, _ => False
  end.
Proof.
  intro HF. unfold py_index. rewrite <- (Forall2_length HF).
  destruct ((0 <=? i) && (i <? Z.of_nat (length l))).
  - apply nth_error_Forall2. exact HF.
  - destruct ((- Z.of_nat (length l) <=? i) && (i <? 0)).
    + apply nth_error_Forall2. exact HF.
    + exact I.
Qed.

Ltac unfold_update_goal :=
  cbv beta iota zeta delta
    [update _update _get_next _get_condition _get_args_kwargs
     bind ret raise get attr assign stamp record now index call
     set_event_num set_predelay_finished set_postdelay_finished
     set_condition_met set_is_last set_all_finished set_start_time
     set_delays_func set_condition
     _verbose _event_num _predelay_finished _postdelay_finished
     _condition_met _is_last _all_finished _start_time _predelay _postdelay
     _func _condition clock ticks raises trace fst snd negb andb orb py_not].

(** While the condition of the current event has not been seen true, each
    call reads it from the sequence it is given. *)
Lemma unlatched_samples (params : list event) (c : config) (e : event) :
  0 <= _event_num (fst c) ->
  _all_finished (fst c) = false ->
  _predelay_finished (fst c) = true ->
  _condition_met (fst c) = false ->
  py_index params (_event_num (fst c)) = Some e ->
  if condition e then
    In (ConditionMet (_event_num (fst c)) (ticks (snd c)))
       (trace (snd (snd (update params c)))) /\
    ((_condition_met (fst (snd (update params c))) = true /\
      _event_num (fst (snd (update params c))) = _event_num (fst c)) \/
     exists new t f a kw,
       trace (snd (snd (update params c))) = new ++ trace (snd c) /\
       In (Called (_event_num (fst c)) t f a kw) new)
  else
    update params c =
      (Ok false,
       (set_condition false (fst c),
        MkWorld (clock (snd c)) (ticks (snd c)) (raises (snd c))
                (Indexed (_event_num (fst c)) :: trace (snd c)))).
Proof.
  destruct c as [[v en pf qf cm il af st pre post fn cnd] [clk tk rs tr]].
  simpl. intros Hen -> -> -> Hidx.
  destruct params as [|e0 params]; [destruct en; discriminate|].
  destruct (update (e0 :: params) _) as [r c'] eqn:E.
  destruct (condition e) eqn:Hc.
  - exec_in E.
    all: finish E; try lia.
    all: try congruence.
    all: (split; [simpl; auto 20|]).
    all: try (left; split; reflexivity).
    all: right.
    all: lazymatch goal with
         | |- exists new t f a kw, ?l = new ++ ?tr /\ _ =>
             let p := prefix_of l tr in
             exists p; do 4 eexists; split; [reflexivity|close]
         end.
  - exec_in E.
    all: finish E; try lia.
    all: try congruence.
    all: reflexivity.
Qed.

(** Once the condition of the current event has been seen true, a call does
    not depend on the conditions it is given. *)
Lemma latched_ignores_conditions (params params' : list event) (c : config) :
  _condition_met (fst c) = true ->
  Forall2 same_but_condition params params' ->
  update params' c = update params c.
Proof.
  destruct c as [[v en pf qf cm il af st pre post fn cnd] [clk tk rs tr]].
  simpl. intros -> HF.
  pose proof (Forall2_length HF) as Hlen.
  destruct (update params _) as [r c'] eqn:E.
  destruct HF as [|e0 e0' params params' H0 HF];
    [exact E|].
  assert (HF' : Forall2 same_but_condition (e0 :: params) (e0' :: params'))
    by (constructor; assumption).
  clear H0 HF.
  exec_in E.
  all: inversion E; subst; clear E.
  all: unfold_update_goal; rewrite <- ?Hlen.
  all: repeat
         (match goal with
          | H : ?g ?x = ?g ?y |- context [?g ?y] => rewrite <- H
          | H : ?b = _ |- context [if ?b then _ else _] => rewrite H
          | H : ?x = _
            |- context [match ?x with Some _ => _ | None => _ end] =>
              rewrite H
          | H : py_index ?l ?k = _ |- context [py_index ?l' ?k] =>
              let HP := fresh "HP" in
              pose proof (py_index_Forall2 _ _ _ _ k HF') as HP;
              rewrite H in HP;
              destruct (py_index l' k) eqn:?;
              try contradiction;
              try (destruct HP as (? & ? & ? & ? & ?))
          end; unfold_update_goal).
  all: reflexivity.
Qed.

(** And it stays seen true until the user function of that event is
    entered. *)
Lemma latch_persists (params : list event) (c c' : config)
    (r : result bool) :
  0 <= _event_num (fst c) ->
  _condition_met (fst c) = true ->
  update params c = (r, c') ->
  (_condition_met (fst c') = true /\
   _event_num (fst c') = _event_num (fst c)) \/
  exists new t f a kw,
    trace (snd c') = new ++ trace (snd c) /\
    In (Called (_event_num (fst c)) t f a kw) new.
Proof.
  destruct c as [[v en pf qf cm il af st pre post fn cnd] [clk tk rs tr]].
  simpl. intros Hen -> E.
  destruct params as [|e0 params]; exec_in E.
  all: finish E; try lia.
  all: try (left; split; reflexivity).
  all: right.
  all: lazymatch goal with
       | |- exists new t f a kw, ?l = new ++ ?tr /\ _ =>
           let p := prefix_of l tr in
           exists p; do 4 eexists; split; [reflexivity|close]
       end.
Qed.

(** C6: while the predelay of the current event is over and its condition
    has not been seen true, a call reads the condition from the sequence it
    is given, whatever an earlier call stored: a true value is latched in
    this call ([_condition_met] is set, and is still set for this event
    when the call ends, unless the call went on to enter the user function
    of the event), a false one leaves everything but the stored sample as it
    was.  Once the condition has been seen true, a call behaves the same
    whatever conditions it is given, and the latch stays set until the user
    function of that event is entered. *)
Theorem condition_sampled_until_latched (params : list event) (c : config)
    (e : event) :
  0 <= _event_num (fst c) ->
  _all_finished (fst c) = false ->
  _predelay_finished (fst c) = true ->
  py_index params (_event_num (fst c)) = Some e ->
  let k := _event_num (fst c) in
  let c' := snd (update params c) in
  if _condition_met (fst c) then
    (forall params',
       Forall2 same_but_condition params params' ->
       update params' c = update params c) /\
    ((_condition_met (fst c') = true /\ _event_num (fst c') = k) \/
     exists new t f a kw,
       trace (snd c') = new ++ trace (snd c) /\ In (Called k t f a kw) new)
  else if condition e then
    In (ConditionMet k (ticks (snd c))) (trace (snd c')) /\
    ((_condition_met (fst c') = true /\ _event_num (fst c') = k) \/
     exists new t f a kw,
       trace (snd c') = new ++ trace (snd c) /\ In (Called k t f a kw) new)
  else
    update params c =
      (Ok false,
       (set_condition false (fst c),
        MkWorld (clock (snd c)) (ticks (snd c)) (raises (snd c))
                (Indexed k :: trace (snd c)))).
Proof.
  intros Hen Haf Hpf Hidx k c'.
  destruct (_condition_met (fst c)) eqn:Hcm.
  - split.
    + intros params' HF. apply latched_ignores_conditions; assumption.
    + unfold c', k. destruct (update params c) as [r c2] eqn:E.
      eapply latch_persists; eassumption.
  - exact (unlatched_samples _ _ _ Hen Haf Hpf Hcm Hidx).
Qed.

(** ** Further properties of one call *)

(** What one call can do to the event number, the clock, the flags and the
    late attributes, and when it raises [IndexError]. *)
Lemma update_frame (params : list event) (c c' : config) (r : result bool) :
  update params c = (r, c') ->
  (_event_num (fst c') <= _event_num (fst c) + 2 /\
   (0 <= _event_num (fst c) ->
    _event_num (fst c') <= _event_num (fst c) + 1 /\
    (ticks (snd c') <= ticks (snd c) + 4)%nat)) /\
  (ticks (snd c') <= ticks (snd c) + 5)%nat /\
  (-1 <= _event_num (fst c) -> params <> [] ->
   _all_finished (fst c) = false -> 0 <= _event_num (fst c')) /\
  (-1 <= _event_num (fst c) -> _event_num (fst c') = -1 ->
   ticks (snd c') = ticks (snd c)) /\
  (_is_last (fst c) = true -> _is_last (fst c') = true) /\
  (_all_finished (fst c) = true -> _all_finished (fst c') = true) /\
  (_is_last (fst c) = true -> 0 <= _event_num (fst c) ->
   _event_num (fst c') = _event_num (fst c)) /\
  (attrs_ready c -> attrs_ready c' /\ r <> Raise AttributeError) /\
  (r = Raise IndexError ->
   params <> [] /\ py_index params (_event_num (fst c')) = None).
Proof.
  destruct c as [[v en pf qf cm il af st pre post fn cnd] [clk tk rs tr]].
  intro E.
  destruct params as [|e0 params]; exec_in E.
  all: finish E.
  all: change (-1 + 1) with 0 in *.
  all: unfold attrs_ready; unfold_update.
  all: repeat split; try lia; try discriminate; try congruence;
    try tauto.
  all: try (right; repeat split; first [discriminate | tauto]).
  all: try (intuition (first [lia | discriminate | congruence])).
Qed.

Lemma run_event_num_lower (calls : list (list event)) (c : config) :
  -1 <= _event_num (fst c) -> -1 <= _event_num (fst (run calls c)).
Proof. intro H. pose proof (run_event_num calls c). lia. Qed.

Lemma run_attrs_ready (calls : list (list event)) :
  forall c, attrs_ready c -> attrs_ready (run calls c).
Proof.
  induction calls as [|params calls IH]; intros c H; simpl; [exact H|].
  apply IH. destruct (update params c) as [r c'] eqn:E. simpl.
  destruct (update_frame _ _ _ _ E) as (_ & _ & _ & _ & _ & _ & _ & Ha & _).
  apply Ha. exact H.
Qed.

(** X1: from a new object, whatever sequences the calls supply (of any
    lengths, empty ones included), [update] never ends with an
    [AttributeError]: [_start_time], [_predelay], [_postdelay], [_func] and
    [_condition] are always assigned before they are read. *)
Theorem late_attributes_never_missing (calls : list (list event))
    (params : list event) (verbose : bool) (clk : nat -> Z)
    (rs : nat -> Func -> Args -> Kwargs -> bool) :
  fst (update params (run calls (start verbose clk rs)))
    <> Raise AttributeError.
Proof.
  assert (H : attrs_ready (run calls (start verbose clk rs)))
    by (apply run_attrs_ready; left; reflexivity).
  destruct (update params _) as [r c'] eqn:E. simpl.
  destruct (update_frame _ _ _ _ E) as (_ & _ & _ & _ & _ & _ & _ & Ha & _).
  apply Ha. exact H.
Qed.

(** X2: a call on an object that started new ends with an [IndexError] only
    when the sequence it is given is non-empty and too short for the event
    that is current at that point: its length is at most the event number
    the object is left with. *)
Theorem index_error_means_short_sequence (calls : list (list event))
    (params : list event) (verbose : bool) (clk : nat -> Z)
    (rs : nat -> Func -> Args -> Kwargs -> bool) (c' : config) :
  update params (run calls (start verbose clk rs)) = (Raise IndexError, c') ->
  (1 <= length params)%nat /\
  Z.of_nat (length params) <= _event_num (fst c') /\
  py_index params (_event_num (fst c')) = None.
Proof.
  intro E.
  pose proof (run_event_num_lower calls (start verbose clk rs)
                ltac:(simpl; lia)) as Hlow.
  destruct (update_frame _ _ _ _ E)
    as (_ & _ & Hpos & _ & _ & _ & _ & _ & Hidx).
  destruct (Hidx eq_refl) as [Hne Hnone].
  assert (Haf : _all_finished (fst (run calls (start verbose clk rs)))
                = false).
  { destruct (_all_finished (fst (run calls (start verbose clk rs))))
      eqn:Haf; [|reflexivity].
    rewrite (update_finished params _ Haf) in E. discriminate. }
  specialize (Hpos Hlow Hne Haf).
  split; [destruct params; [congruence|simpl; lia]|].
  split; [|exact Hnone].
  apply py_index_None in Hnone. lia.
Qed.

(** X3: once the event that was last when it became current is being
    processed, the event number never changes again, whatever sequences are
    supplied afterwards: events appended to the sequence later are never
    started. *)
Theorem late_events_are_ignored (calls : list (list event)) (c : config) :
  _is_last (fst c) = true -> 0 <= _event_num (fst c) ->
  _event_num (fst (run calls c)) = _event_num (fst c) /\
  _is_last (fst (run calls c)) = true.
Proof.
  revert c. induction calls as [|params calls IH]; intros c Hl Hk; simpl.
  - split; [reflexivity|exact Hl].
  - destruct (update params c) as [r c'] eqn:E. simpl.
    destruct (update_frame _ _ _ _ E)
      as (_ & _ & _ & _ & Hl' & _ & Hk' & _).
    specialize (Hl' Hl). specialize (Hk' Hl Hk).
    destruct (IH c' Hl' ltac:(lia)) as [H1 H2].
    split; [congruence|exact H2].
Qed.

(** X4: a call advances the schedule by one event at most: after [m] calls
    on a new object the event number is at most [m] and at most [m] user
    functions have been entered, so a schedule of [n] events needs at least
    [n] calls. *)
Theorem one_event_per_call (calls : list (list event)) (verbose : bool)
    (clk : nat -> Z) (rs : nat -> Func -> Args -> Kwargs -> bool) :
  let c := run calls (start verbose clk rs) in
  -1 <= _event_num (fst c) <= Z.of_nat (length calls) /\
  (length (filter is_call (trace (snd c))) <= length calls)%nat.
Proof.
  assert (H : forall calls (c : config),
             -1 <= _event_num (fst c) ->
             -1 <= _event_num (fst (run calls c)) /\
             _event_num (fst (run calls c))
             <= Z.max (_event_num (fst c)) 0 + Z.of_nat (length calls) /\
             (length (filter is_call (trace (snd (run calls c))))
              <= length (filter is_call (trace (snd c))) + length calls)%nat).
  { clear calls. induction calls as [|params calls IH]; intros c Hc; simpl run.
    - simpl. lia.
    - destruct (update params c) as [r c'] eqn:E. simpl snd.
      destruct (update_frame _ _ _ _ E) as ((H2 & H1) & _).
      destruct (update_any _ _ _ _ E)
        as (Hmono & _ & _ & _ & new & Hnew & _ & Hone).
      destruct (IH c' ltac:(lia)) as (I1 & I2 & I3).
      rewrite Hnew, filter_app, length_app in I3.
      split; [exact I1|]. split.
      + change (length (params :: calls)) with (S (length calls)).
        destruct (Z.eq_dec (_event_num (fst c)) (-1)) as [Heq|Hneq].
        * lia.
        * destruct (H1 ltac:(lia)) as [H1' _]. lia.
      + simpl length. lia. }
  intro c. destruct (H calls (start verbose clk rs) ltac:(simpl; lia))
    as (H1 & H2 & H3).
  simpl in H2, H3. split; [split; [exact H1|]|]; fold c in H2, H3; lia.
Qed.

(** X5: [update] never waits: a call reads the clock at most five times
    (four once an event has been started), so [m] calls on a new object
    make at most [4 m + 1] readings. *)
Theorem clock_reads_bounded (calls : list (list event)) (verbose : bool)
    (clk : nat -> Z) (rs : nat -> Func -> Args -> Kwargs -> bool) :
  (ticks (snd (run calls (start verbose clk rs))) <= 4 * length calls + 1)%nat /\
  forall params,
    (ticks (snd (snd (update params (run calls (start verbose clk rs)))))
     <= ticks (snd (run calls (start verbose clk rs))) + 5)%nat.
Proof.
  assert (H : forall calls (c : config),
             -1 <= _event_num (fst c) ->
             (_event_num (fst c) = -1 -> ticks (snd c) = 0%nat) ->
             (ticks (snd (run calls c))
              <= Nat.max (ticks (snd c)) 1 + 4 * length calls)%nat).
  { clear calls. induction calls as [|params calls IH]; intros c Hc H0;
      simpl run.
    - simpl. lia.
    - destruct (update params c) as [r c'] eqn:E. simpl snd.
      destruct (update_frame _ _ _ _ E) as ((_ & H1) & H5 & _ & Hsame & _).
      destruct (update_any _ _ _ _ E) as (Hmono & _).
      specialize (IH c' ltac:(lia)).
      change (length (params :: calls)) with (S (length calls)).
      destruct (Z.eq_dec (_event_num (fst c)) (-1)) as [Heq|Hneq].
      + specialize (H0 Heq).
        assert (Hc' : _event_num (fst c') = -1 -> ticks (snd c') = 0%nat).
        { intro H. rewrite (Hsame Hc H). exact H0. }
        specialize (IH Hc'). lia.
      + destruct (H1 ltac:(lia)) as [_ H4].
        assert (Hc' : _event_num (fst c') = -1 -> ticks (snd c') = 0%nat)
          by (intro; lia).
        specialize (IH Hc'). lia. }
  split.
  - specialize (H calls (start verbose clk rs) ltac:(simpl; lia)
                  ltac:(reflexivity)).
    simpl in H. lia.
  - intro params. destruct (update params _) as [r c'] eqn:E. simpl.
    destruct (update_frame _ _ _ _ E) as (_ & H5 & _). exact H5.
Qed.

Lemma differ_at_most_at_index (k : Z) (params params' : list event) (i : Z) :
  differ_at_most_at k params params' -> 0 <= i ->
  match py_index params i, py_index params' i with
  | Some e, Some e' => e = e' \/ (i = k /\ same_live_fields e e')
  | None, None => True
  | _, _ => False
  end.
Proof.
  intros [_ Hd] Hi.
  destruct (Hd i Hi) as [Heq|(Hk & e & e' & He & He' & Hs)].
  - rewrite Heq. destruct (py_index params i); [left; reflexivity|exact I].
  - rewrite He, He'. right. split; assumption.
Qed.

(** Replacing the first event by one with the same condition and arguments
    changes the sequence at index 0 only. *)
Lemma differ_at_most_at_head (e e' : event) (rest : list event) :
  same_live_fields e e' -> differ_at_most_at 0 (e :: rest) (e' :: rest).
Proof.
  intro Hs. split; [reflexivity|]. intros i Hi.
  destruct (Z.eq_dec i 0) as [->|Hneq].
  - right. split; [reflexivity|]. exists e, e'. repeat split; apply Hs.
  - left. unfold py_index. simpl length.
    replace (i <? 0) with false by (symmetry; apply Z.ltb_ge; lia).
    rewrite andb_false_r.
    destruct ((0 <=? i) && (i <? Z.of_nat (S (length rest))));
      [|reflexivity].
    destruct (Z.to_nat i) as [|j] eqn:Ej; [lia|reflexivity].
Qed.

(** X6: the delays and the function of the current event are those the
    object stored when the event became current; what a later call supplies
    for them at that index is never read.  A call gives the same result,
    the same object and the same history for two sequences that differ only
    there. *)
Theorem current_delays_and_function_are_stored (params params' : list event)
    (c : config) :
  0 <= _event_num (fst c) ->
  differ_at_most_at (_event_num (fst c)) params params' ->
  update params' c = update params c.
Proof.
  destruct c as [[v en pf qf cm il af st pre post fn cnd] [clk tk rs tr]].
  simpl. intros Hen Hd. pose proof (proj1 Hd) as Hlen.
  destruct (update params _) as [r c'] eqn:E.
  destruct params as [|e0 params]; destruct params' as [|e0' params'];
    try discriminate Hlen; [exact E|].
  exec_in E.
  all: inversion E; subst; clear E.
  all: try match goal with
           | H : (?x =? -1) = true |- _ => apply Z.eqb_eq in H; lia
           end.
  all: unfold_update_goal.
  all: repeat
         (match goal with
          | H : length ?l' = length _ |- context [length ?l'] => rewrite H
          | H : condition _ = condition ?y |- context [condition ?y] =>
              rewrite <- H
          | H : args_tuple _ = args_tuple ?y |- context [args_tuple ?y] =>
              rewrite <- H
          | H : kwargs_dict _ = kwargs_dict ?y |- context [kwargs_dict ?y] =>
              rewrite <- H
          | H : ?b = true |- context [if ?b then _ else _] => rewrite H
          | H : ?b = false |- context [if ?b then _ else _] => rewrite H
          | H : ?x = Some _
            |- context [match ?x with Some _ => _ | None => _ end] =>
              rewrite H
          | H : ?x = None
            |- context [match ?x with Some _ => _ | None => _ end] =>
              rewrite H
          | H : py_index ?l ?k = _ |- context [py_index ?l' ?k] =>
              let HP := fresh "HP" in
              pose proof (differ_at_most_at_index _ _ _ k Hd ltac:(lia)) as HP;
              rewrite H in HP;
              destruct (py_index l' k) eqn:?;
              try contradiction;
              try (destruct HP as [HP|(? & ? & ? & ?)];
                   [subst|try (exfalso; lia)])
          end; unfold_update_goal).
  all: reflexivity.
Qed.

(** X7: with a clock that never goes backwards, the user function of an
    event is entered only when a reading shows at least predelay + postdelay
    milliseconds more than the reading taken when the event became current
    (the delays being those supplied when it became current). *)
Theorem callback_not_before_delays (n : Z) (calls : list (list event))
    (verbose : bool) (clk : nat -> Z)
    (rs : nat -> Func -> Args -> Kwargs -> bool) (k : Z) (t : nat)
    (f : Func) (a : Args) (kw : Kwargs) :
  1 <= n -> all_length n calls -> monotone clk ->
  In (Called k t f a kw) (trace (snd (run calls (start verbose clk rs)))) ->
  exists i0 i3 pre post,
    In (Started k i0 pre post f)
       (trace (snd (run calls (start verbose clk rs)))) /\
    (i0 < i3 /\ i3 < t)%nat /\
    pre + post <= clk i3 - clk i0 /\
    exists p e, In p calls /\ py_index p k = Some e /\
                pre = predelay e /\ post = postdelay e.
Proof.
  intros Hn Hall Hmono Hin.
  pose proof (reach_Inv _ _ verbose clk rs Hn Hall) as (_ & HCC & _).
  assert (Hclk : clock (snd (run calls (start verbose clk rs))) = clk)
    by apply run_clock.
  unfold call_chain in HCC. rewrite Hclk in HCC.
  destruct (HCC _ _ _ _ _ Hin)
    as (i0 & i1 & i2 & i3 & pre & post & Hs & _ & _ & _ & Hlt & Hd1 & Hd2).
  exists i0, i3, pre, post. split; [exact Hs|]. split; [lia|]. split.
  - pose proof (Hmono i1 i2 ltac:(lia)). lia.
  - destruct (reach_from_params _ _ _ _ _ Hs)
      as (p & Hp & e & He & H1 & H2 & _).
    exists p, e. repeat split; assumption.
Qed.

(** ** The delays add up *)

Lemma update_started_after :
  forall (n : Z) (params : list event) (c c' : config) (r : result bool),
  1 <= n -> Z.of_nat (length params) = n -> Inv n c ->
  update params c = (r, c') ->
  started_after (snd c) -> started_after (snd c').
Proof.
  inv_paths.
  all: try (intro Hsa; exact Hsa).
  all: unfold started_after; unfold_update.
  all: intros Hsa k0 j0 p0 q0 f0 Hin Hk; split_in Hin.
  all: try (exfalso; lia).
  all: try (destruct (Hsa _ _ _ _ _ Hin Hk) as (t1 & f1 & a1 & kw1 & Hp & Hle);
            exists t1, f1, a1, kw1; split; [close|exact Hle]).
  all: lazymatch goal with
       | |- exists t f' a' kw', In (Called ?x t f' a' kw') ?l /\ _ =>
           lazymatch l with
           | context [Called ?y _ _ _ _] => replace x with y by lia
           end
       end.
  all: splits; [close|lia].
Qed.

Lemma run_started_after (n : Z) (calls : list (list event)) :
  1 <= n -> all_length n calls ->
  forall c, Inv n c -> started_after (snd c) ->
            started_after (snd (run calls c)).
Proof.
  intros Hn Hall. induction Hall as [|params calls Hlen Hall IH];
    intros c HI Hsa; simpl.
  - exact Hsa.
  - destruct (update params c) as [r c'] eqn:E. simpl. apply IH.
    + pose proof (update_Inv _ _ _ Hn Hlen HI) as HI'. rewrite E in HI'.
      exact HI'.
    + exact (update_started_after _ _ _ _ _ Hn Hlen HI E Hsa).
Qed.

Lemma py_index_nat (A : Type) (l : list A) (k : nat) (a : A) :
  py_index l (Z.of_nat k) = Some a -> nth_error l k = Some a.
Proof.
  unfold py_index.
  destruct ((0 <=? Z.of_nat k) && (Z.of_nat k <? Z.of_nat (length l))) eqn:E.
  - rewrite Nat2Z.id. auto.
  - destruct ((- Z.of_nat (length l) <=? Z.of_nat k) && (Z.of_nat k <? 0))
      eqn:E2; [|discriminate].
    apply andb_prop in E2. destruct E2 as [_ E2]. apply Z.ltb_lt in E2. lia.
Qed.

Lemma total_delay_firstn_S (events : list event) (k : nat) (e : event) :
  nth_error events k = Some e ->
  total_delay (firstn (S k) events)
  = total_delay (firstn k events) + (predelay e + postdelay e).
Proof.
  revert k. induction events as [|x events IH]; intros [|k] H;
    simpl in H; try discriminate.
  - inversion H. subst. simpl. destruct events; simpl; lia.
  - change (firstn (S (S k)) (x :: events)) with (x :: firstn (S k) events).
    change (firstn (S k) (x :: events)) with (x :: firstn k events).
    cbn [total_delay]. rewrite (IH k H). lia.
Qed.

(** X8: when every call supplies the same sequence and the clock never goes
    backwards, the user function of event [k] is entered only when a
    reading shows at least the sum of all the delays of the events 0 to [k]
    more than the first reading. *)
Theorem delays_add_up (params : list event) (m : nat) (verbose : bool)
    (clk : nat -> Z) (rs : nat -> Func -> Args -> Kwargs -> bool)
    (k t : nat) (f : Func) (a : Args) (kw : Kwargs) :
  params <> [] -> monotone clk ->
  In (Called (Z.of_nat k) t f a kw)
     (trace (snd (run (repeat params m) (start verbose clk rs)))) ->
  exists i, (i < t)%nat /\
            total_delay (firstn (S k) params) <= clk i - clk 0%nat.
Proof.
  intros Hne Hmono.
  set (n := Z.of_nat (length params)).
  assert (Hn : 1 <= n) by (destruct params; [congruence|unfold n; simpl; lia]).
  assert (Hall : all_length n (repeat params m)).
  { apply Forall_forall. intros p Hp. apply repeat_spec in Hp. subst p.
    reflexivity. }
  pose proof (reach_Inv _ _ verbose clk rs Hn Hall) as HI.
  pose proof (run_started_after _ _ Hn Hall _ (start_Inv _ verbose clk rs Hn))
    as Hsa.
  specialize (Hsa ltac:(intros ? ? ? ? ? []) ).
  assert (Hclk : clock (snd (run (repeat params m) (start verbose clk rs)))
                 = clk) by apply run_clock.
  destruct HI as (_ & HCC & _). unfold call_chain in HCC.
  rewrite Hclk in HCC. unfold started_after in Hsa.
  revert t f a kw. induction k as [|k IH]; intros t f a kw Hin;
    destruct (HCC _ _ _ _ _ Hin)
      as (i0 & i1 & i2 & i3 & pre & post & Hs & _ & _ & _ & Hlt & Hd1 & Hd2);
    destruct (reach_from_params _ _ _ _ _ Hs)
      as (p & Hp & e & He & -> & -> & _);
    apply repeat_spec in Hp; subst p; apply py_index_nat in He;
    rewrite (total_delay_firstn_S _ _ _ He); exists i3; (split; [lia|]).
  - simpl total_delay.
    pose proof (Hmono 0%nat i0 ltac:(lia)).
    pose proof (Hmono i1 i2 ltac:(lia)). lia.
  - destruct (Hsa _ _ _ _ _ Hs ltac:(lia)) as (t' & f' & a' & kw' & Hc & Hle).
    replace (Z.of_nat (S k) - 1) with (Z.of_nat k) in Hc by lia.
    destruct (IH _ _ _ _ Hc) as (i & Hi & Hsum).
    pose proof (Hmono i i0 ltac:(lia)).
    pose proof (Hmono i1 i2 ltac:(lia)). lia.
Qed.

(** ** The schedule finishes *)

Lemma update_returned_called :
  forall (n : Z) (params : list event) (c c' : config) (r : result bool),
  1 <= n -> Z.of_nat (length params) = n -> Inv n c ->
  update params c = (r, c') ->
  returned_called (snd c) -> returned_called (snd c').
Proof.
  inv_paths.
  all: try (intro Hrc; exact Hrc).
  all: unfold returned_called; unfold_update.
  all: intros Hrc k0 Hin; split_in Hin.
  all: try (destruct (Hrc _ Hin) as (t1 & f1 & a1 & kw1 & Hp);
            exists t1, f1, a1, kw1; close).
  all: splits; close.
Qed.

Lemma py_index_In (A : Type) (l : list A) (i : Z) (a : A) :
  py_index l i = Some a -> In a l.
Proof.
  unfold py_index.
  destruct ((0 <=? i) && (i <? Z.of_nat (length l))).
  - apply nth_error_In.
  - destruct ((- Z.of_nat (length l) <=? i) && (i <? 0));
      [apply nth_error_In|discriminate].
Qed.

(** One call while the schedule is not finished, when the supplied
    conditions are true and the user functions return: the schedule is
    finished, or a later event is current, or the current event has its
    condition latched, or the call only waited. *)
Lemma live_step :
  forall (n : Z) (params : list event) (c c' : config) (r : result bool),
  1 <= n -> Z.of_nat (length params) = n -> Inv n c ->
  update params c = (r, c') ->
  (forall e, In e params -> condition e = true) ->
  never_raises (raises (snd c)) ->
  _all_finished (fst c) = false ->
  _postdelay_finished (fst c) = false ->
  _all_finished (fst c') = true \/
  (_all_finished (fst c') = false /\
   _postdelay_finished (fst c') = false /\
   (_event_num (fst c) < _event_num (fst c') \/
    (_event_num (fst c') = _event_num (fst c) /\
     (waits c c' \/
      (_predelay_finished (fst c') = true /\
       _condition_met (fst c') = true /\
       _condition_met (fst c) = false))))).
Proof.
  inv_paths.
  all: intros Htrue Hnr Haf Hqf; unfold waits, never_raises in *;
    unfold_update.
  all: try discriminate.
  all: repeat match goal with
              | H : _ = true |- _ => rewrite Hnr in H; discriminate
              | H : py_index _ _ = Some ?e, H' : condition ?e = false
                |- _ =>
                  apply py_index_In in H; apply Htrue in H; congruence
              end.
  all: try (left; reflexivity).
  all: right; split; [reflexivity|]; split; [reflexivity|].
  all: try (left; lia).
  all: right; split; [reflexivity|].
  all: try (right; repeat split; reflexivity).
  all: left; split; [reflexivity|]; split; [reflexivity|];
    split; [reflexivity|].
  all: eexists; eexists; split; [reflexivity|]; split; [reflexivity|].
  all: assumption.
Qed.

Lemma run_returned_called (n : Z) (calls : list (list event)) :
  1 <= n -> all_length n calls ->
  forall c, Inv n c -> returned_called (snd c) ->
            returned_called (snd (run calls c)).
Proof.
  intros Hn Hall. induction Hall as [|params calls Hlen Hall IH];
    intros c HI Hrc; simpl.
  - exact Hrc.
  - destruct (update params c) as [r c'] eqn:E. simpl. apply IH.
    + pose proof (update_Inv _ _ _ Hn Hlen HI) as HI'. rewrite E in HI'.
      exact HI'.
    + exact (update_returned_called _ _ _ _ _ Hn Hlen HI E Hrc).
Qed.

Lemma predelay_timer (n : Z) (c : config) :
  Inv n c -> 0 <= _event_num (fst c) ->
  _predelay_finished (fst c) = false ->
  exists s p, _start_time (fst c) = Some s /\ _predelay (fst c) = Some p.
Proof.
  intros ((_ & _ & _ & _ & _ & HS6) & _) Hen Hpf.
  destruct (HS6 Hen) as (i0 & pre & post & f & Hp & _ & _ & _ & _ & H).
  rewrite Hpf in H. destruct H as (Hs & _). eauto.
Qed.

Lemma postdelay_timer (n : Z) (c : config) :
  Inv n c -> 0 <= _event_num (fst c) ->
  _predelay_finished (fst c) = true -> _condition_met (fst c) = true ->
  _postdelay_finished (fst c) = false ->
  exists s q, _start_time (fst c) = Some s /\ _postdelay (fst c) = Some q.
Proof.
  intros ((_ & _ & _ & _ & _ & HS6) & _) Hen Hpf Hcm Hqf.
  destruct (HS6 Hen) as (i0 & pre & post & f & _ & Hq & _ & _ & _ & H).
  rewrite Hpf in H. destruct H as (i1 & _ & _ & _ & H).
  rewrite Hcm in H. destruct H as (i2 & _ & _ & H).
  rewrite Hqf in H. eauto.
Qed.

Section Termination.

Variable params : list event.
Variable clk : nat -> Z.
Variable rs : nat -> Func -> Args -> Kwargs -> bool.

Hypothesis Hne : params <> [].
Hypothesis Htrue : forall e, In e params -> condition e = true.
Hypothesis Hnr : never_raises rs.
Hypothesis Hmono : monotone clk.
Hypothesis Hunb : unbounded clk.

Local Abbreviation n := (Z.of_nat (length params)).

(* the state of a run in progress *)
Local Abbreviation good c :=
  (Inv n c /\ clock (snd c) = clk /\ raises (snd c) = rs /\
   _all_finished (fst c) = false /\ _postdelay_finished (fst c) = false).

(* finished, or a later event is current *)
Local Abbreviation done_or_advanced c c1 :=
  (_all_finished (fst c1) = true \/
   (_all_finished (fst c1) = false /\ _postdelay_finished (fst c1) = false /\
    _event_num (fst c) < _event_num (fst c1))).

Lemma length_pos : 1 <= n.
Proof. destruct params; [congruence|simpl; lia]. Qed.

Lemma all_length_same (m : nat) : all_length n (repeat params m).
Proof.
  apply Forall_forall. intros p Hp. apply repeat_spec in Hp. subst p.
  reflexivity.
Qed.

Lemma step_kept (c c' : config) (r : result bool) :
  Inv n c -> clock (snd c) = clk -> raises (snd c) = rs ->
  update params c = (r, c') ->
  Inv n c' /\ clock (snd c') = clk /\ raises (snd c') = rs.
Proof.
  intros HI Hc Hr E.
  pose proof (update_Inv _ _ _ length_pos eq_refl HI) as HI'.
  rewrite E in HI'.
  destruct (update_any _ _ _ _ E) as (_ & Hc' & Hr' & _).
  split; [exact HI'|]. split; congruence.
Qed.

Lemma run_kept (m : nat) (c : config) :
  Inv n c -> clock (snd c) = clk -> raises (snd c) = rs ->
  Inv n (run (repeat params m) c) /\
  clock (snd (run (repeat params m) c)) = clk /\
  raises (snd (run (repeat params m) c)) = rs.
Proof.
  intros HI Hc Hr. split.
  - apply run_Inv; [exact length_pos|apply all_length_same|exact HI].
  - destruct (run_clock (repeat params m) c) as [H1 H2]. split; congruence.
Qed.

(** With the condition latched, the postdelay runs out. *)
Lemma latched_done (d : nat) :
  forall (c : config) (s q : Z),
    good c ->
    _predelay_finished (fst c) = true -> _condition_met (fst c) = true ->
    _start_time (fst c) = Some s -> _postdelay (fst c) = Some q ->
    (exists J, (J <= ticks (snd c) + d)%nat /\ s + q <= clk J) ->
    exists m, done_or_advanced c (run (repeat params m) c).
Proof.
  induction d as [|d IH];
    intros c s q (HI & Hc & Hr & Haf & Hqf) Hpf Hcm Hs Hq (J & HJ & Hclk);
    destruct (update params c) as [r c'] eqn:E;
    (assert (Hnr' : never_raises (raises (snd c))) by (rewrite Hr; exact Hnr));
    destruct (live_step _ _ _ _ _ length_pos eq_refl HI E Htrue Hnr' Haf Hqf)
      as [Hd|(Haf' & Hqf' & [Hadv|(Hsame & [Hw|(_ & _ & Hx)])])];
    try (exists 1%nat; simpl; rewrite E; simpl; tauto);
    try congruence;
    destruct Hw as (Hfst & Htk & _ & s' & d' & Hs' & Hd' & Hlt);
    rewrite Hpf in Hd'; rewrite Hc in Hlt;
    assert (s' = s) by congruence; assert (d' = q) by congruence; subst s' d';
    (assert (HT : (ticks (snd c) < J)%nat)
      by (destruct (Nat.lt_ge_cases (ticks (snd c)) J) as [Hl|Hg];
          [exact Hl|pose proof (Hmono _ _ Hg); lia])).
  - lia.
  - destruct (step_kept _ _ _ HI Hc Hr E) as (HI' & Hc' & Hr').
    destruct (IH c' s q) as (m & Hm).
    + split; [exact HI'|]. split; [exact Hc'|]. split; [exact Hr'|].
      split; assumption.
    + rewrite Hfst. exact Hpf.
    + rewrite Hfst. exact Hcm.
    + rewrite Hfst. exact Hs.
    + rewrite Hfst. exact Hq.
    + exists J. split; [lia|exact Hclk].
    + exists (S m). simpl. rewrite E. simpl.
      rewrite Hfst in Hm. exact Hm.
Qed.

Lemma latched_finishes (c : config) :
  good c -> 0 <= _event_num (fst c) ->
  _predelay_finished (fst c) = true -> _condition_met (fst c) = true ->
  exists m, done_or_advanced c (run (repeat params m) c).
Proof.
  intros Hg Hen Hpf Hcm. pose proof Hg as (HI & _ & _ & _ & Hqf).
  destruct (postdelay_timer _ _ HI Hen Hpf Hcm Hqf) as (s & q & Hs & Hq).
  destruct (Hunb (s + q)) as (J & HJ).
  apply (latched_done J c s q Hg Hpf Hcm Hs Hq).
  exists J. split; [lia|exact HJ].
Qed.

(** One more call first. *)
Lemma after_one_call (c c' : config) (r : result bool) :
  update params c = (r, c') ->
  _event_num (fst c') = _event_num (fst c) ->
  (exists m, done_or_advanced c' (run (repeat params m) c')) ->
  exists m, done_or_advanced c (run (repeat params m) c).
Proof.
  intros E Hsame (m & Hm). exists (S m). simpl. rewrite E. simpl.
  rewrite <- Hsame. exact Hm.
Qed.

(** The predelay runs out, and then the postdelay. *)
Lemma predelay_done (d : nat) :
  forall (c : config) (s p : Z),
    good c -> 0 <= _event_num (fst c) ->
    _predelay_finished (fst c) = false ->
    _start_time (fst c) = Some s -> _predelay (fst c) = Some p ->
    (exists J, (J <= ticks (snd c) + d)%nat /\ s + p <= clk J) ->
    exists m, done_or_advanced c (run (repeat params m) c).
Proof.
  induction d as [|d IH];
    intros c s p (HI & Hc & Hr & Haf & Hqf) Hen Hpf Hs Hp (J & HJ & Hclk);
    destruct (update params c) as [r c'] eqn:E;
    (assert (Hnr' : never_raises (raises (snd c))) by (rewrite Hr; exact Hnr));
    destruct (step_kept _ _ _ HI Hc Hr E) as (HI' & Hc' & Hr');
    destruct (live_step _ _ _ _ _ length_pos eq_refl HI E Htrue Hnr' Haf Hqf)
      as [Hd|(Haf' & Hqf' & [Hadv|(Hsame & [Hw|(Hpf' & Hcm' & _)])])];
    try (exists 1%nat; simpl; rewrite E; simpl; tauto);
    try (apply (after_one_call _ _ _ E Hsame); apply latched_finishes;
         [split; [exact HI'|]; split; [exact Hc'|]; split; [exact Hr'|];
          split; assumption
         |lia|exact Hpf'|exact Hcm']);
    destruct Hw as (Hfst & Htk & _ & s' & d' & Hs' & Hd' & Hlt);
    rewrite Hpf in Hd'; rewrite Hc in Hlt;
    assert (s' = s) by congruence; assert (d' = p) by congruence; subst s' d';
    (assert (HT : (ticks (snd c) < J)%nat)
      by (destruct (Nat.lt_ge_cases (ticks (snd c)) J) as [Hl|Hg];
          [exact Hl|pose proof (Hmono _ _ Hg); lia])).
  - lia.
  - apply (after_one_call _ _ _ E Hsame). apply (IH c' s p).
    + split; [exact HI'|]. split; [exact Hc'|]. split; [exact Hr'|].
      split; assumption.
    + lia.
    + rewrite Hfst. exact Hpf.
    + rewrite Hfst. exact Hs.
    + rewrite Hfst. exact Hp.
    + exists J. split; [lia|exact Hclk].
Qed.

(** The current event gets done: after some more calls the schedule is
    finished or a later event is current. *)
Lemma event_done (c : config) :
  good c -> exists m, done_or_advanced c (run (repeat params m) c).
Proof.
  intros Hg. pose proof Hg as (HI & Hc & Hr & Haf & Hqf).
  destruct (Z.lt_ge_cases (_event_num (fst c)) 0) as [Hneg|Hen].
  - destruct (update params c) as [r c'] eqn:E.
    assert (Hlow : -1 <= _event_num (fst c)) by (destruct HI as ((H & _) & _); lia).
    destruct (update_frame _ _ _ _ E) as (_ & _ & Hpos & _).
    specialize (Hpos Hlow Hne Haf).
    assert (Hnr' : never_raises (raises (snd c))) by (rewrite Hr; exact Hnr).
    destruct (live_step _ _ _ _ _ length_pos eq_refl HI E Htrue Hnr' Haf Hqf)
      as [Hd|(Haf' & Hqf' & [Hadv|(Hsame & _)])];
      try (exists 1%nat; simpl; rewrite E; simpl; tauto).
    lia.
  - destruct (_predelay_finished (fst c)) eqn:Hpf.
    + destruct (_condition_met (fst c)) eqn:Hcm.
      * apply latched_finishes; assumption.
      * destruct (update params c) as [r c'] eqn:E.
        assert (Hnr' : never_raises (raises (snd c)))
          by (rewrite Hr; exact Hnr).
        destruct (step_kept _ _ _ HI Hc Hr E) as (HI' & Hc' & Hr').
        destruct (live_step _ _ _ _ _ length_pos eq_refl HI E Htrue Hnr'
                    Haf Hqf)
          as [Hd|(Haf' & Hqf' & [Hadv|(Hsame & [Hw|(Hpf' & Hcm' & _)])])];
          try (exists 1%nat; simpl; rewrite E; simpl; tauto).
        -- destruct Hw as (_ & _ & Hx & _). congruence.
        -- apply (after_one_call _ _ _ E Hsame). apply latched_finishes;
             [split; [exact HI'|]; split; [exact Hc'|]; split; [exact Hr'|];
              split; assumption
             |lia|exact Hpf'|exact Hcm'].
    + destruct (predelay_timer _ _ HI Hen Hpf) as (s & p & Hs & Hp).
      destruct (Hunb (s + p)) as (J & HJ).
      apply (predelay_done J c s p Hg Hen Hpf Hs Hp).
      exists J. split; [lia|exact HJ].
Qed.

(** Event after event, the schedule finishes. *)
Lemma finishes_from (N : nat) :
  forall c, good c -> n - _event_num (fst c) <= Z.of_nat N ->
            exists m, _all_finished (fst (run (repeat params m) c)) = true.
Proof.
  induction N as [|N IH]; intros c Hg HN;
    pose proof Hg as (HI & Hc & Hr & Haf & Hqf);
    (assert (Hlt : _event_num (fst c) < n)
      by (destruct HI as ((H & _) & _); lia)).
  - lia.
  - destruct (event_done c Hg) as (m1 & [Hd|(Haf1 & Hqf1 & Hadv)]).
    + exists m1. exact Hd.
    + destruct (run_kept m1 c HI Hc Hr) as (HI1 & Hc1 & Hr1).
      destruct (IH (run (repeat params m1) c)) as (m2 & Hm2).
      * split; [exact HI1|]. split; [exact Hc1|]. split; [exact Hr1|].
        split; assumption.
      * lia.
      * exists (m1 + m2)%nat. rewrite repeat_app, run_app. exact Hm2.
Qed.

(** From a new object: some number of calls finishes the schedule, and the
    user function of every event has been entered by then. *)
Lemma finishes_and_enters_all (verbose : bool) :
  exists m,
    let c := run (repeat params m) (start verbose clk rs) in
    fst (update params c) = Ok true /\
    forall k, 0 <= k < n ->
              exists t f a kw, In (Called k t f a kw) (trace (snd c)).
Proof.
  pose proof (start_Inv _ verbose clk rs length_pos) as HI0.
  destruct (finishes_from (Z.to_nat (n + 1)) (start verbose clk rs))
    as (m & Hm).
  - split; [exact HI0|]. repeat split; reflexivity.
  - simpl. lia.
  - exists m. intro c. fold c in Hm. split.
    + rewrite (update_finished params c Hm). reflexivity.
    + destruct (run_kept m _ HI0 eq_refl eq_refl) as (HI & _). fold c in HI.
      pose proof (run_returned_called _ _ length_pos (all_length_same m) _ HI0)
        as Hrc.
      specialize (Hrc ltac:(intros ? [])). fold c in Hrc.
      destruct HI as ((H1 & _) & _ & _ & _ & HCP & _ & HR1 & HR2).
      specialize (HR2 Hm). pose proof (HR1 _ HR2) as Hk.
      intros k Hk'. destruct (Z.eq_dec k (n - 1)) as [->|Hneq].
      * exact (Hrc _ HR2).
      * apply HCP. destruct Hk as [Hk|(Hk & _)]; lia.
Qed.

End Termination.

(** X9: when every call supplies the same non-empty sequence with all
    conditions true, the user functions return, and the clock never goes
    backwards and grows beyond every bound, the schedule finishes: after
    some number of calls on a new object [update] returns [True], and by
    then the user function of every event has been entered. *)
Theorem schedule_finishes (params : list event) (verbose : bool)
    (clk : nat -> Z) (rs : nat -> Func -> Args -> Kwargs -> bool) :
  params <> [] ->
  (forall e, In e params -> condition e = true) ->
  never_raises rs -> monotone clk -> unbounded clk ->
  exists m,
    let c := run (repeat params m) (start verbose clk rs) in
    fst (update params c) = Ok true /\
    forall k, 0 <= k < Z.of_nat (length params) ->
              exists t f a kw, In (Called k t f a kw) (trace (snd c)).
Proof.
  intros Hne Htrue Hnr Hmono Hunb.
  exact (finishes_and_enters_all params clk rs Hne Htrue Hnr Hmono Hunb
           verbose).
Qed.

End Model.

Arguments Event {Func Args Kwargs}.
Arguments predelay {Func Args Kwargs}.
Arguments condition {Func Args Kwargs}.
Arguments postdelay {Func Args Kwargs}.
Arguments func {Func Args Kwargs}.
Arguments args_tuple {Func Args Kwargs}.
Arguments kwargs_dict {Func Args Kwargs}.
Arguments _event_num {Func}.
Arguments _predelay_finished {Func}.
Arguments _postdelay_finished {Func}.
Arguments _condition_met {Func}.
Arguments _all_finished {Func}.
Arguments _condition {Func}.
Arguments set_condition {Func}.
Arguments Indexed {Func Args Kwargs}.
Arguments Started {Func Args Kwargs}.
Arguments PredelayOver {Func Args Kwargs}.
Arguments ConditionMet {Func Args Kwargs}.
Arguments PostdelayOver {Func Args Kwargs}.
Arguments Called {Func Args Kwargs}.
Arguments Returned {Func Args Kwargs}.
Arguments MkWorld {Func Args Kwargs}.
Arguments clock {Func Args Kwargs}.
Arguments ticks {Func Args Kwargs}.
Arguments raises {Func Args Kwargs}.
Arguments trace {Func Args Kwargs}.
Arguments start {Func Args Kwargs}.
Arguments update {Func Args Kwargs}.
Arguments run {Func Args Kwargs}.
Arguments results {Func Args Kwargs}.
Arguments is_call {Func Args Kwargs}.
Arguments is_call_of {Func Args Kwargs}.
Arguments all_length {Func Args Kwargs}.
Arguments final_returned {Func Args Kwargs}.
Arguments pending {Func Args Kwargs}.
Arguments same_but_condition {Func Args Kwargs}.
Arguments _is_last {Func}.
Arguments same_live_fields {Func Args Kwargs}.
Arguments differ_at_most_at {Func Args Kwargs}.
Arguments differ_at_most_at_head {Func Args Kwargs}.
Arguments total_delay {Func Args Kwargs}.
Arguments never_raises {Func Args Kwargs}.

(** ** Concrete runs *)

(** Abbreviations for the data of the runs below: user functions are named
    by strings and take lists of integers. *)
Abbreviation ev := (event string (list Z) (list Z)).

(* a clock that advances by 10 ms between two readings *)
Abbreviation every10 := (fun i : nat => 10 * Z.of_nat i).

(* user functions that always return, and user functions that always raise *)
Abbreviation returning :=
  (fun (_ : nat) (_ : string) (_ _ : list Z) => false).
Abbreviation raising :=
  (fun (_ : nat) (_ : string) (_ _ : list Z) => true).

Abbreviation fA := ("A"%string).
Abbreviation fB := ("B"%string).
Abbreviation fC := ("C"%string).
Abbreviation fD := ("D"%string).

Abbreviation evA := (Event 0 true 0 fA [1] [2] : ev).
Abbreviation evB := (Event 100 true 0 fB [3] [4] : ev).
(* an event whose condition is not yet true, and the same once it is *)
Abbreviation evC := (Event 0 false 0 fC [5] [6] : ev).
Abbreviation evC' := (Event 0 true 0 fC [5] [6] : ev).
(* an event that waits 50 ms after its condition, with two argument sets *)
Abbreviation evD := (Event 0 true 50 fD [5] [6] : ev).
Abbreviation evD' := (Event 0 false 50 fD [7] [8] : ev).

Abbreviation fresh := (start false every10 returning).
Abbreviation fresh_raising := (start false every10 raising).

Abbreviation AB := ([evA; evB]).

Lemma every10_monotone (i j : nat) : (i <= j)%nat -> every10 i <= every10 j.
Proof. cbv beta. lia. Qed.

Lemma every10_unbounded : unbounded every10.
Proof. intro z. exists (Z.to_nat z). cbv beta. lia. Qed.

Lemma all_length_repeat (n : nat) (params : list ev) :
  all_length (Z.of_nat (length params)) (repeat params n).
Proof.
  apply Forall_forall. intros p Hp. apply repeat_spec in Hp. subst p.
  reflexivity.
Qed.

(** The scenario of two events, A without delays and B with a predelay of
    100 ms, polled with a clock that advances 10 ms per reading: A's function
    is entered in call 1, B's in call 11, and [update] returns [True] from
    call 12 on. *)
Example scenario_A_then_B :
  results (repeat AB 13) fresh = repeat (Ok false) 11 ++ [Ok true; Ok true] /\
  filter is_call (trace (snd (run (repeat AB 1) fresh))) =
    [Called 0 4 fA [1] [2]] /\
  filter is_call (trace (snd (run (repeat AB 10) fresh))) =
    [Called 0 4 fA [1] [2]] /\
  filter is_call (trace (snd (run (repeat AB 11) fresh))) =
    [Called 1 17 fB [3] [4]; Called 0 4 fA [1] [2]].
Proof. repeat split; vm_compute; reflexivity. Qed.

(** *** C1 *)

(** A single event without delays: the first call enters its function,
    which returns, and [update] returns [False], not [True]. *)
Lemma update_true_on_final_call_refuted :
  trace (snd fresh) = [] /\
  In (Called 0 4 fA [1] [2]) (trace (snd (snd (update [evA] fresh)))) /\
  In (Returned 0) (trace (snd (snd (update [evA] fresh)))) /\
  fst (update [evA] fresh) = Ok false /\
  fst (update [evA] fresh) <> Ok true.
Proof.
  split; [reflexivity|]. split; [vm_compute; tauto|].
  split; [vm_compute; tauto|]. split; [reflexivity|].
  vm_compute. discriminate.
Qed.

(** Events A then B, polled every 10 ms: the eleventh call enters B. *)
Lemma update_result_witness :
  let calls := repeat AB 10 in
  let c := run calls fresh in
  let r := fst (update AB c) in
  let c' := snd (update AB c) in
  (final_returned 2 c -> r = Ok true /\ c' = c) /\
  (~ final_returned 2 c -> r = Ok false \/ r = Raise CallbackError) /\
  (forall new t f a kw,
     trace (snd c') = new ++ trace (snd c) ->
     In (Called (2 - 1) t f a kw) new ->
     ~ final_returned 2 c /\
     if raises (snd c) t f a kw
     then r = Raise CallbackError /\ ~ final_returned 2 c'
     else r = Ok false /\ final_returned 2 c').
Proof.
  intros calls c r c'.
  apply (@update_result string (list Z) (list Z) 2 calls AB false every10
           returning r c').
  - lia.
  - exact (all_length_repeat 10 AB).
  - reflexivity.
  - vm_compute. reflexivity.
Defined.

(** *** C2 *)

(** The function of the only event raises in the first call; the second
    call, with the same sequence, returns [False] and enters nothing. *)
Lemma retry_after_failure_refuted :
  let c1 := snd (update [evA] fresh_raising) in
  fst (update [evA] fresh_raising) = Raise CallbackError /\
  In (Called 0 4 fA [1] [2]) (trace (snd c1)) /\
  fst (update [evA] c1) = Ok false /\
  trace (snd (snd (update [evA] c1))) = trace (snd c1) /\
  filter is_call (trace (snd (run (repeat [evA] 20) c1))) =
    [Called 0 4 fA [1] [2]].
Proof.
  cbv zeta. split; [reflexivity|]. split; [vm_compute; tauto|].
  split; [reflexivity|]. split; vm_compute; reflexivity.
Qed.

Lemma callback_failure_is_final_witness :
  let c := fresh_raising in
  let r := fst (update [evA] c) in
  let c' := snd (update [evA] c) in
  r = Raise CallbackError /\
  _event_num (fst c') = 0 /\
  _postdelay_finished (fst c') = true /\
  _all_finished (fst c') = false /\
  forall params', update params' c' = (Ok (py_not params'), c').
Proof.
  intros c r c'.
  apply (@callback_failure_is_final string (list Z) (list Z) [evA] c c' r
           (trace (snd c')) 0 4%nat fA [1] [2]).
  - vm_compute. reflexivity.
  - vm_compute. reflexivity.
  - vm_compute. tauto.
  - reflexivity.
Defined.

(** *** C3 *)

(** A call without events returns [True]; the next call, with an event,
    returns [False] and enters that event's function. *)
Lemma true_then_false_refutes_idempotence :
  let c1 := snd (update [] fresh) in
  fst (update [] fresh) = Ok true /\
  fst (update [evA] c1) = Ok false /\
  In (Called 0 4 fA [1] [2]) (trace (snd (snd (update [evA] c1)))) /\
  trace (snd c1) = [].
Proof.
  cbv zeta. split; [reflexivity|]. split; [reflexivity|].
  split; [vm_compute; tauto|reflexivity].
Qed.

Lemma finished_stays_finished_witness :
  let c := run [[evA]] fresh in
  c = c /\ forall params', update params' c = (Ok true, c).
Proof.
  intro c.
  apply (@finished_stays_finished string (list Z) (list Z) [evA] c c).
  - discriminate.
  - vm_compute. reflexivity.
Defined.

(** *** C4 *)

Lemma callback_discipline_witness :
  let calls := repeat AB 12 in
  let c := run calls fresh in
  (forall k, (length (filter (is_call_of k) (trace (snd c))) <= 1)%nat) /\
  (forall params r c',
     update params c = (r, c') ->
     exists new, trace (snd c') = new ++ trace (snd c) /\
                 (length (filter is_call new) <= 1)%nat) /\
  (forall k t f a kw,
     In (Called k t f a kw) (trace (snd c)) ->
     exists i0 i1 i2 i3 pre post,
       In (Started k i0 pre post f) (trace (snd c)) /\
       In (PredelayOver k i1) (trace (snd c)) /\
       In (ConditionMet k i2) (trace (snd c)) /\
       In (PostdelayOver k i3) (trace (snd c)) /\
       (i0 < i1 /\ i1 < i2 /\ i2 < i3 /\ i3 < t)%nat /\
       pre <= every10 i1 - every10 i0 /\
       post <= every10 i3 - every10 i2 /\
       (exists p e, In p calls /\ py_index p k = Some e /\
                    pre = predelay e /\ post = postdelay e) /\
       (exists p e, In p calls /\ py_index p k = Some e /\
                    condition e = true)) /\
  (forall k,
     (forall p e, In p calls -> py_index p k = Some e ->
                  condition e = false) ->
     forall t f a kw, ~ In (Called k t f a kw) (trace (snd c))).
Proof.
  intros calls c.
  apply (@callback_discipline string (list Z) (list Z) 2 calls false every10
           returning).
  - lia.
  - exact (all_length_repeat 12 AB).
Defined.

(** *** C5 *)

Lemma zero_delay_event_completes_witness :
  exists new t f,
    trace (snd (snd (update AB fresh))) = new ++ trace (snd fresh) /\
    In (Called 0 t f (args_tuple evA) (kwargs_dict evA)) new.
Proof.
  apply (@zero_delay_event_completes string (list Z) (list Z) 2 [] AB false
           every10 returning 0 evA).
  - lia.
  - constructor.
  - reflexivity.
  - exact every10_monotone.
  - intros p e' [<-|[]] He'. vm_compute in He'. inversion He'.
    split; reflexivity.
  - left. split; reflexivity.
  - reflexivity.
  - reflexivity.
Defined.

(** *** C6 *)

(** After one call with [evC] the predelay is over and the condition was
    false; after one call with [evD] the condition is latched and the
    postdelay is running; after one call with [evD'] the condition was
    false, and the next call, given a true one, latches it and starts the
    postdelay. *)
Lemma condition_sampled_until_latched_witness :
  (let c := run [[evC]] fresh in
   let k := _event_num (fst c) in
   let c' := snd (update [evC'] c) in
   if _condition_met (fst c) then
     (forall params',
        Forall2 same_but_condition [evC'] params' ->
        update params' c = update [evC'] c) /\
     ((_condition_met (fst c') = true /\ _event_num (fst c') = k) \/
      exists new t f a kw,
        trace (snd c') = new ++ trace (snd c) /\ In (Called k t f a kw) new)
   else if condition evC' then
     In (ConditionMet k (ticks (snd c))) (trace (snd c')) /\
     ((_condition_met (fst c') = true /\ _event_num (fst c') = k) \/
      exists new t f a kw,
        trace (snd c') = new ++ trace (snd c) /\ In (Called k t f a kw) new)
   else
     update [evC'] c =
       (Ok false,
        (set_condition false (fst c),
         MkWorld (clock (snd c)) (ticks (snd c)) (raises (snd c))
                 (Indexed k :: trace (snd c))))) /\
  (let c := run [[evD]] fresh in
   let k := _event_num (fst c) in
   let c' := snd (update [evD'] c) in
   if _condition_met (fst c) then
     (forall params',
        Forall2 same_but_condition [evD'] params' ->
        update params' c = update [evD'] c) /\
     ((_condition_met (fst c') = true /\ _event_num (fst c') = k) \/
      exists new t f a kw,
        trace (snd c') = new ++ trace (snd c) /\ In (Called k t f a kw) new)
   else if condition evD' then
     In (ConditionMet k (ticks (snd c))) (trace (snd c')) /\
     ((_condition_met (fst c') = true /\ _event_num (fst c') = k) \/
      exists new t f a kw,
        trace (snd c') = new ++ trace (snd c) /\ In (Called k t f a kw) new)
   else
     update [evD'] c =
       (Ok false,
        (set_condition false (fst c),
         MkWorld (clock (snd c)) (ticks (snd c)) (raises (snd c))
                 (Indexed k :: trace (snd c))))) /\
  (let c := run [[evD']] fresh in
   let k := _event_num (fst c) in
   let c' := snd (update [evD] c) in
   if _condition_met (fst c) then
     (forall params',
        Forall2 same_but_condition [evD] params' ->
        update params' c = update [evD] c) /\
     ((_condition_met (fst c') = true /\ _event_num (fst c') = k) \/
      exists new t f a kw,
        trace (snd c') = new ++ trace (snd c) /\ In (Called k t f a kw) new)
   else if condition evD then
     In (ConditionMet k (ticks (snd c))) (trace (snd c')) /\
     ((_condition_met (fst c') = true /\ _event_num (fst c') = k) \/
      exists new t f a kw,
        trace (snd c') = new ++ trace (snd c) /\ In (Called k t f a kw) new)
   else
     update [evD] c =
       (Ok false,
        (set_condition false (fst c),
         MkWorld (clock (snd c)) (ticks (snd c)) (raises (snd c))
                 (Indexed k :: trace (snd c))))).
Proof.
  split; [|split].
  - apply (@condition_sampled_until_latched string (list Z) (list Z)
             [evC'] (run [[evC]] fresh) evC');
      [vm_compute; discriminate|vm_compute; reflexivity
      |vm_compute; reflexivity|vm_compute; reflexivity].
  - apply (@condition_sampled_until_latched string (list Z) (list Z)
             [evD'] (run [[evD]] fresh) evD');
      [vm_compute; discriminate|vm_compute; reflexivity
      |vm_compute; reflexivity|vm_compute; reflexivity].
  - apply (@condition_sampled_until_latched string (list Z) (list Z)
             [evD] (run [[evD']] fresh) evD);
      [vm_compute; discriminate|vm_compute; reflexivity
      |vm_compute; reflexivity|vm_compute; reflexivity].
Defined.

(** *** C7 *)

(** The event is supplied four times with the arguments [5], [6] and then,
    in the call that finds the postdelay elapsed, with [7], [8]: the
    function gets [7], [8]. *)
Lemma callback_arguments_are_fresh_witness :
  let c := run (repeat [evD] 4) fresh in
  let c' := snd (update [evD'] c) in
  trace (snd c') =
    [Returned 0; Called 0 8 fD [7] [8]; Indexed 0; PostdelayOver 0 7]
    ++ trace (snd c) /\
  exists e, py_index [evD'] 0 = Some e /\
            [7] = args_tuple e /\ [8] = kwargs_dict e.
Proof.
  intros c c'.
  assert (Hnew : trace (snd c') =
                 [Returned 0; Called 0 8 fD [7] [8]; Indexed 0;
                  PostdelayOver 0 7] ++ trace (snd c))
    by (vm_compute; reflexivity).
  split; [exact Hnew|].
  apply (@callback_arguments_are_fresh string (list Z) (list Z) [evD'] c c'
           (fst (update [evD'] c)) _ 0 8%nat fD [7] [8]
           ltac:(vm_compute; reflexivity) Hnew).
  simpl. tauto.
Defined.

(** *** C9 *)

Lemma events_advance_in_order_witness :
  let c1 := run [AB] fresh in
  let c2 := run ([AB] ++ repeat AB 11) fresh in
  _event_num (fst c1) <= _event_num (fst c2) /\
  forall i t f a kw,
    1 <= i -> In (Called i t f a kw) (trace (snd c2)) ->
    exists t' f' a' kw',
      In (Called (i - 1) t' f' a' kw') (trace (snd c2)) /\ (t' < t)%nat.
Proof.
  apply (@events_advance_in_order string (list Z) (list Z) 2 [AB]
           (repeat AB 11) false every10 returning).
  - lia.
  - exact (all_length_repeat 12 AB).
Defined.

(** *** C10 *)

Lemma indexing_is_in_range_witness :
  let c := run [AB] fresh in
  -1 <= _event_num (fst (snd (update AB c))) <= 2 - 1 /\
  (forall i, In (Indexed i) (trace (snd (snd (update AB c)))) ->
             0 <= i <= 2 - 1) /\
  (fst (update AB c) = Ok true \/
   fst (update AB c) = Ok false \/
   fst (update AB c) = Raise CallbackError).
Proof.
  apply (@indexing_is_in_range string (list Z) (list Z) 2 [AB] AB false
           every10 returning).
  - lia.
  - exact (all_length_repeat 1 AB).
  - reflexivity.
Defined.

(** ** Concrete runs for the further properties *)

(** Two events were supplied and the second is current; a call that supplies
    one event only ends with an [IndexError]. *)
Lemma index_error_means_short_sequence_witness :
  let c' := snd (update [evA] (run [[evA; evA]] fresh)) in
  (1 <= length [evA])%nat /\
  Z.of_nat (length [evA]) <= _event_num (fst c') /\
  py_index [evA] (_event_num (fst c')) = None.
Proof.
  intro c'.
  apply (@index_error_means_short_sequence string (list Z) (list Z)
           [[evA; evA]] [evA] false every10 returning c').
  vm_compute. reflexivity.
Defined.

(** The first call supplied event B alone; the later calls supply a second
    event after it, which never becomes current. *)
Lemma late_events_are_ignored_witness :
  let c := run [[evB]] fresh in
  _event_num (fst (run (repeat [evB; evA] 14) c)) = _event_num (fst c) /\
  _is_last (fst (run (repeat [evB; evA] 14) c)) = true.
Proof.
  intro c.
  apply (@late_events_are_ignored string (list Z) (list Z)
           (repeat [evB; evA] 14) c).
  - vm_compute. reflexivity.
  - vm_compute. discriminate.
Defined.

(** Event B is current and waits for its predelay; a call that supplies
    other delays and another function at its index does the same. *)
Lemma current_delays_and_function_are_stored_witness :
  let c := run [[evB; evA]] fresh in
  update [Event 5 true 7 fC [3] [4]; evA] c = update [evB; evA] c.
Proof.
  intro c.
  apply (@current_delays_and_function_are_stored string (list Z) (list Z)
           [evB; evA] [Event 5 true 7 fC [3] [4]; evA] c).
  - vm_compute. discriminate.
  - replace (_event_num (fst c)) with 0 by (vm_compute; reflexivity).
    apply differ_at_most_at_head. split; [|split]; reflexivity.
Defined.

(** Events A then B, polled every 10 ms: B's function is entered at the
    seventeenth reading of the clock. *)
Lemma callback_not_before_delays_witness :
  exists i0 i3 pre post,
    In (Started 1 i0 pre post fB)
       (trace (snd (run (repeat AB 12) fresh))) /\
    (i0 < i3 /\ i3 < 17)%nat /\
    pre + post <= every10 i3 - every10 i0 /\
    exists p e, In p (repeat AB 12) /\ py_index p 1 = Some e /\
                pre = predelay e /\ post = postdelay e.
Proof.
  apply (@callback_not_before_delays string (list Z) (list Z) 2
           (repeat AB 12) false every10 returning 1 17%nat fB [3] [4]).
  - lia.
  - exact (all_length_repeat 12 AB).
  - exact every10_monotone.
  - vm_compute. tauto.
Defined.

Lemma delays_add_up_witness :
  exists i, (i < 17)%nat /\
            total_delay (firstn (S 1) AB) <= every10 i - every10 0%nat.
Proof.
  apply (@delays_add_up string (list Z) (list Z) AB 12 false every10
           returning 1%nat 17%nat fB [3] [4]).
  - discriminate.
  - exact every10_monotone.
  - vm_compute. tauto.
Defined.

Lemma schedule_finishes_witness :
  exists m,
    let c := run (repeat AB m) (start false every10 returning) in
    fst (update AB c) = Ok true /\
    forall k, 0 <= k < Z.of_nat (length AB) ->
              exists t f a kw, In (Called k t f a kw) (trace (snd c)).
Proof.
  apply (@schedule_finishes string (list Z) (list Z) AB false every10
           returning).
  - discriminate.
  - intros e [<-|[<-|[]]]; reflexivity.
  - intros t f a kw. reflexivity.
  - exact every10_monotone.
  - exact every10_unbounded.
Defined.
